(** * prism: the n-way profile diff of cmd/diff.go

    A shallow embedding of [cmd/diff.go] (package [cmd]) and the properties
    of its correlation map, its row emission and its cell formatting.

    - float64 values are Rocq's primitive binary64 floats, so that the
      comparisons and the division of [fmtDiff] behave as in Go, NaN and
      infinities included;
    - Go maps are stdpp [gmap]s; slices written by index are lists with a
      bounds-checked write that fails where Go would panic, and
      [strings.Repeat] fails on the counts Go panics on;
    - the call tree of a profile is a rose tree of [Entry] nodes;
    - what diff.go imports from other packages ([util], [profiler], the
      terminal test) is taken as a section variable. *)

From Stdlib Require Import ZArith Floats Ascii String DecimalString.
From stdpp Require Import base option list gmap strings.

#[local] Set Warnings "-inexact-float,-register-all,-clear-no-such-hyp".
#[local] Open Scope string_scope.

(** * Part I: the embedding *)

(** ** profiler.Entry *)

Module Profiler.

(** Modelled from the spec: [profiler.Entry] is declared in package
    [profiler], outside cmd/.  The fields are the ones diff.go reads: the
    function name, the nesting depth (an int, which diff.go hands to
    [strings.Repeat] as the count of tree guides and which nothing keeps
    within the counts that function accepts), the three durations in
    nanoseconds
    (time.Duration, an int64), the invocation count (an int) and the
    ordered children. *)
Inductive Entry : Type := mkEntry {
  Name : string;
  Depth : Z;
  TotalTime : Z;
  MinTime : Z;
  MaxTime : Z;
  Invocations : Z;
  Children : list Entry
}.

(** Nodes of a call tree in depth-first pre-order: a node, then the
    subtrees of its children from first to last. *)
Fixpoint preorder (pe : Entry) : list Entry :=
  pe :: flat_map preorder (Children pe).

End Profiler.
Import Profiler.

(** ** The Go runtime: machine integers, float conversion, slices *)

Module Go.

(** Two's complement wrap-around of a 64 bit [int]. *)
Definition wrap64 (z : Z) : Z :=
  (z + 2 ^ 63) mod 2 ^ 64 - 2 ^ 63.

Definition int_mul (a b : Z) : Z := wrap64 (a * b).

(** [float64(i)] for an integer [i]: the nearest binary64 value, ties to
    even. *)
Definition float64_of_int (i : Z) : float :=
  SF2Prim (binary_normalize prec emax i 0 false).

(** [make([]T, n)] with [zero] the zero value of [T]. *)
Definition make {T : Type} (zero : T) (n : nat) : list T := replicate n zero.

(** [s[i] = v]: [None] stands for the run-time panic of an index out of
    range. *)
Definition slice_set {T : Type} (i : nat) (v : T) (s : list T)
    : option (list T) :=
  if decide (i < length s) then Some (<[i := v]> s) else None.

(** [s[i].f = v], as an update of the element in place. *)
Definition slice_update {T : Type} (i : nat) (f : T → T) (s : list T)
    : option (list T) :=
  match s !! i with
  | Some x => Some (<[i := f x]> s)
  | None => None
  end.

(** [count] copies of [s], one after the other. *)
Fixpoint copies (s : string) (count : nat) : string :=
  match count with
  | O => ""
  | S n => s +:+ copies s n
  end.

(** The largest [int], of 64 bits. *)
Definition maxInt : Z := 9223372036854775807.

(** [strings.Repeat(s, count)] for an [int] count.  It panics if [count]
    is negative ("strings: negative Repeat count") or if the length of the
    result, [len(s) * count], overflows [int] ("strings: Repeat output
    length overflow"); [None] stands for either panic.  As for [make], the
    memory of the machine is no limit here. *)
Definition strings_Repeat (s : string) (count : Z) : option string :=
  if decide (count < 0)%Z then None
  else if decide (maxInt < Z.of_nat (String.length s) * count)%Z then None
  else Some (copies s (Z.to_nat count)).

End Go.
Import Go.

(** ** Package fmt: the verbs diff.go uses *)

Module Fmt.

(** [%d] of an integer. *)
Definition fmt_d (i : Z) : string := NilZero.string_of_int (Z.to_int i).

Definition digits (n : N) : string := NilEmpty.string_of_uint (N.to_uint n).

(** The integer nearest to [num / den], ties to the even one, for
    [0 <= num] and [0 < den]. *)
Definition round_half_even (num den : Z) : Z :=
  let q := (num / den)%Z in
  match (2 * (num mod den) ?= den)%Z with
  | Lt => q
  | Gt => (q + 1)%Z
  | Eq => if Z.even q then q else (q + 1)%Z
  end.

(** The digits of [m * 2^e] scaled by [10^precision] and rounded to an
    integer: what strconv prints for the 'f' format, which rounds the exact
    decimal expansion of the binary value. *)
Definition scaled (precision : nat) (m : positive) (e : Z) : N :=
  let p := (10 ^ Z.of_nat precision)%Z in
  Z.to_N (if (0 <=? e)%Z then Z.pos m * 2 ^ e * p
          else round_half_even (Z.pos m * p) (2 ^ (- e))).

(** Left padding with zeros up to [n] characters. *)
Definition pad_zeros (n : nat) (s : string) : string :=
  copies "0" (n - String.length s) +:+ s.

(** A string of at least [precision + 1] digits with the decimal point set
    before the last [precision] ones. *)
Definition point (precision : nat) (ds : string) : string :=
  let ds := pad_zeros (S precision) ds in
  let k := (String.length ds - precision)%nat in
  String.substring 0 k ds +:+ "." +:+ String.substring k precision ds.

(** [%w.pf] of a float64 for a precision [p >= 1] and a width [w] that
    the shortest output already reaches ([%1.2f] and [%2.1f] in diff.go):
    NaN and the infinities by name, a sign for negative values (negative
    zero included), and the value rounded to [p] decimals. *)
Definition fmt_f (precision : nat) (x : float) : string :=
  match Prim2SF x with
  | S754_nan => "NaN"
  | S754_infinity false => "+Inf"
  | S754_infinity true => "-Inf"
  | S754_zero s =>
      (if s then "-" else "") +:+ point precision "0"
  | S754_finite s m e =>
      (if s then "-" else "") +:+ point precision (digits (scaled precision m e))
  end.

End Fmt.
Import Fmt.

(** ** Package util: the table that diff.go fills *)

Module Util.

(** Modelled from the spec: [util.TableColumnType] is declared outside
    cmd/; these are the five columns the switches of [populateDiffRows]
    name. *)
Inductive TableColumnType : Type :=
  | TableColTotal
  | TableColAvg
  | TableColMin
  | TableColMax
  | TableColInvocations.

(** Modelled from the spec: [util.Alignment] is declared outside cmd/;
    diff.go names these two values.  The field of the table that holds the
    alignments is [Alignment_] below, the name of the type being taken. *)
Inductive Alignment : Type := AlignLeft | AlignRight.

(** Modelled from the spec: [util.TableHeaderGroup] is declared outside
    cmd/; diff.go writes these two fields. *)
Record TableHeaderGroup : Type := mkHeaderGroup {
  Header : string;
  ColSpan : nat
}.

(** Modelled from the spec: [util.Table] is declared outside cmd/;
    these are the five fields diff.go sets. *)
Record Table : Type := mkTable {
  Headers : list string;
  HeaderGroups : list TableHeaderGroup;
  Alignment_ : list Alignment;
  Rows : list (list string);
  Padding : nat
}.

Definition set_Header (h : string) (g : TableHeaderGroup) : TableHeaderGroup :=
  {| Header := h; ColSpan := ColSpan g |}.

Definition set_ColSpan (n : nat) (g : TableHeaderGroup) : TableHeaderGroup :=
  {| Header := Header g; ColSpan := n |}.

Definition set_Headers (hs : list string) (t : Table) : Table :=
  {| Headers := hs; HeaderGroups := HeaderGroups t;
     Alignment_ := Alignment_ t; Rows := Rows t; Padding := Padding t |}.

Definition set_HeaderGroups (gs : list TableHeaderGroup) (t : Table) : Table :=
  {| Headers := Headers t; HeaderGroups := gs;
     Alignment_ := Alignment_ t; Rows := Rows t; Padding := Padding t |}.

Definition set_Alignment (al : list Alignment) (t : Table) : Table :=
  {| Headers := Headers t; HeaderGroups := HeaderGroups t;
     Alignment_ := al; Rows := Rows t; Padding := Padding t |}.

(** [t.Rows = append(t.Rows, row)] *)
Definition append_row (row : list string) (t : Table) : Table :=
  {| Headers := Headers t; HeaderGroups := HeaderGroups t;
     Alignment_ := Alignment_ t; Rows := Rows t ++ [row];
     Padding := Padding t |}.

End Util.
Import Util.

(** ** cmd/diff.go *)

(** The errors [DiffProfiles] returns: its own two, and the ones handed up
    from the column parser and the profile loader. *)
Inductive error : Type :=
  | errNotEnoughProfiles
  | errNoDiffColumnsSpecified
  | errForeign (msg : string).

(** What [DiffProfiles] reads from its [cli.Context]: the positional
    arguments and the two flags. *)
Record Context : Type := mkContext {
  Args : list string;
  ctx_columns : string;
  ctx_threshold : float
}.

(** One call of [Table.Write] on standard output. *)
Record StdoutWrite : Type := mkWrite {
  written : Table;
  stripAnsiChars : bool
}.

(** Line 18. *)
Definition diffEpsilon : float := 0.01%float.

(** The escape sequences of lines 229-236. *)
Definition yellow : string := String "027" "[33m".
Definition green : string := String "027" "[32m".
Definition red : string := String "027" "[31m".
Definition reset : string := String "027" "[0m".

Abbreviation idToEntryMap := (gmap nat Entry).
Abbreviation correlatedEntriesMap := (gmap string (gmap nat Entry)).

(** *** populateEntryGroups and correlateEntries (lines 67-96) *)

(** The body of [populateEntryGroups] for one node: lines 82-91. *)
Definition recordEntry (profileId : nat) (pe : Entry)
    (entryGroupsByName : correlatedEntriesMap) : correlatedEntriesMap :=
  match entryGroupsByName !! Name pe with
  | Some list => <[Name pe := <[profileId := pe]> list]> entryGroupsByName
  | None => <[Name pe := {[profileId := pe]}]> entryGroupsByName
  end.

(** Lines 81-96: the node is recorded, then its children from first to
    last, each with its subtree; the map is passed along. *)
Fixpoint populateEntryGroups (profileId : nat) (pe : Entry)
    (entryGroupsByName : correlatedEntriesMap) : correlatedEntriesMap :=
  (fix children (cs : list Entry) (m : correlatedEntriesMap) :=
     match cs with
     | [] => m
     | child :: cs' => children cs' (populateEntryGroups profileId child m)
     end) (Children pe) (recordEntry profileId pe entryGroupsByName).

(** The loop of [correlateEntries], with the running profile index. *)
Fixpoint correlateFrom (profileId : nat) (profiles : list Entry)
    (entryGroupsByName : correlatedEntriesMap) : correlatedEntriesMap :=
  match profiles with
  | [] => entryGroupsByName
  | profile :: rest =>
      correlateFrom (S profileId) rest
        (populateEntryGroups profileId profile entryGroupsByName)
  end.

(** Lines 69-77. *)
Definition correlateEntries (profiles : list Entry) : correlatedEntriesMap :=
  correlateFrom 0 profiles ∅.

(** [entryGroupsByName[name]]: a missing key reads as the nil map. *)
Definition group (m : correlatedEntriesMap) (name : string) : idToEntryMap :=
  default ∅ (m !! name).

(** [entryGroupsByName[name][i]]: the slot of profile [i] in the row of
    [name], [None] for Go's nil. *)
Definition slot (m : correlatedEntriesMap) (name : string) (i : nat)
    : option Entry :=
  group m name !! i.

(** *** fmtDiff (lines 209-237) *)

(** Lines 218-225: the speedup, 0 for a candidate of 0, and 1 when the
    absolute delta is below the epsilon. *)
Definition speedupOf (baseLine candidate : float) : float :=
  let absDelta := abs (baseLine - candidate)%float in
  let speedup :=
    (if negb (candidate =? 0) then baseLine / candidate else 0)%float in
  if (absDelta <? diffEpsilon)%float then 1%float else speedup.

(** Lines 227-234. *)
Definition colorOf (speedup : float) : string :=
  if ((speedup =? 0) || (speedup =? 1))%float then yellow
  else if (1 <=? speedup)%float then green
  else red.

(** Lines 212-237. *)
Definition fmtDiff (baseLine candidate threshold : float) : string :=
  let absDelta := abs (baseLine - candidate)%float in
  if (absDelta <? threshold)%float then fmt_f 2 candidate +:+ " (--)"
  else
    let speedup := speedupOf baseLine candidate in
    fmt_f 2 candidate +:+ " (" +:+ colorOf speedup +:+ fmt_f 1 speedup
      +:+ "x" +:+ reset +:+ ")".

(** *** populateDiffRows (lines 138-207) *)

(** The four values of lines 155-158 (and 163-166 for the baseline), in
    milliseconds. *)
Definition totalTime (entry : Entry) : float :=
  (float64_of_int (TotalTime entry) / 1.0e6)%float.
Definition avgTime (entry : Entry) : float :=
  (float64_of_int (TotalTime entry)
   / float64_of_int (int_mul (Invocations entry) 1000000))%float.
Definition minTime (entry : Entry) : float :=
  (float64_of_int (MinTime entry) / 1.0e6)%float.
Definition maxTime (entry : Entry) : float :=
  (float64_of_int (MaxTime entry) / 1.0e6)%float.

(** The switch of lines 169-180: a cell compared with the baseline. *)
Definition diffCell (baseLine entry : Entry) (threshold : float)
    (dType : TableColumnType) : string :=
  match dType with
  | TableColTotal => fmtDiff (totalTime baseLine) (totalTime entry) threshold
  | TableColAvg => fmtDiff (avgTime baseLine) (avgTime entry) threshold
  | TableColMin => fmtDiff (minTime baseLine) (minTime entry) threshold
  | TableColMax => fmtDiff (maxTime baseLine) (maxTime entry) threshold
  | TableColInvocations => fmt_d (Invocations entry)
  end.

(** The switch of lines 184-195: a cell with no comparison. *)
Definition plainCell (entry : Entry) (dType : TableColumnType) : string :=
  match dType with
  | TableColTotal => fmt_f 2 (totalTime entry) +:+ " (---)"
  | TableColAvg => fmt_f 2 (avgTime entry) +:+ " (---)"
  | TableColMin => fmt_f 2 (minTime entry) +:+ " (---)"
  | TableColMax => fmt_f 2 (maxTime entry) +:+ " (---)"
  | TableColInvocations => fmt_d (Invocations entry)
  end.

(** The test of line 161 and the cell either branch writes. *)
Definition cellOf (baseLine : option Entry) (profileId : nat) (entry : Entry)
    (threshold : float) (dType : TableColumnType) : string :=
  match baseLine with
  | Some b =>
      if decide (profileId ≠ 0) then diffCell b entry threshold dType
      else plainCell entry dType
  | None => plainCell entry dType
  end.

(** The loops of lines 168 and 183: [row[baseIndex+dIndex] = cell dType]
    for the columns from [dIndex] on. *)
Fixpoint fillCells (cell : TableColumnType → string) (baseIndex dIndex : nat)
    (diffCols : list TableColumnType) (row : list string)
    : option (list string) :=
  match diffCols with
  | [] => Some row
  | dType :: rest =>
      row' ← slice_set (baseIndex + dIndex) (cell dType) row;
      fillCells cell baseIndex (S dIndex) rest row'
  end.

(** The loop of line 154 over the entries of the group, in the order
    [entries] in which the map hands them out. *)
Fixpoint fillRow (baseLine : option Entry) (diffCols : list TableColumnType)
    (threshold : float) (entries : list (nat * Entry)) (row : list string)
    : option (list string) :=
  match entries with
  | [] => Some row
  | (profileId, entry) :: rest =>
      let baseIndex := profileId * length diffCols + 1 in
      row' ← fillCells (cellOf baseLine profileId entry threshold)
                baseIndex 0 diffCols row;
      fillRow baseLine diffCols threshold rest row'
  end.

(** Line 143-149: the call-stack cell.  [strings.Repeat] panics on a
    depth it does not accept as a count, and no cell is made. *)
Definition callCell (pe : Entry) : option string :=
  call ← strings_Repeat "| " (Depth pe);
  let call := match Children pe with
              | [] => call +:+ "- "
              | _ :: _ => call +:+ "+ "
              end in
  Some (call +:+ Name pe).

(** Lines 140-198: the row of one node of the first profile.  The row is
    made, then the call-stack cell (where a depth that is no count
    panics), then the metric cells (where a slot out of range panics). *)
Definition buildRow (pe : Entry) (numProfiles : nat)
    (entryGroupsByName : correlatedEntriesMap)
    (diffCols : list TableColumnType) (threshold : float)
    : option (list string) :=
  let row := make "" (numProfiles * length diffCols + 1) in
  cell ← callCell pe;
  row ← slice_set 0 cell row;
  let baseLine := slot entryGroupsByName (Name pe) 0 in
  fillRow baseLine diffCols threshold
    (map_to_list (group entryGroupsByName (Name pe))) row.

(** Lines 139-207: the row of the node is appended to the table, then
    the rows of its children. *)
Fixpoint populateDiffRows (pe : Entry) (numProfiles : nat)
    (entryGroupsByName : correlatedEntriesMap) (t : Table)
    (diffCols : list TableColumnType) (threshold : float) : option Table :=
  row ← buildRow pe numProfiles entryGroupsByName diffCols threshold;
  (fix children (cs : list Entry) (t : Table) : option Table :=
     match cs with
     | [] => Some t
     | child :: cs' =>
         t' ← populateDiffRows child numProfiles entryGroupsByName t
                diffCols threshold;
         children cs' t'
     end) (Children pe) (append_row row t).

(** Lines 119-123: the header of the group of profile [index]. *)
Definition groupLabel (index : nat) : string :=
  if decide (index = 0) then "baseline"
  else "profile " +:+ fmt_d (Z.of_nat index).

Section Diff.

(** What diff.go calls in other packages: the header of a column
    ([TableColumnType.Header]), the column parser
    ([util.ParseTableColumList], which returns a list and an error), the
    profile loader ([profiler.LoadProfile]) and whether standard output is
    a terminal ([terminal.IsTerminal]). *)
Context (columnHeader : TableColumnType → string).
Context (ParseTableColumList : string → list TableColumnType * option error).
Context (LoadProfile : string → Entry + error).
Context (IsTerminal : bool).

(** *** tabularizeDiff (lines 98-136) *)

(** The inner loop of lines 126-129. *)
Fixpoint fillHeaders (baseIndex dIndex : nat)
    (diffCols : list TableColumnType) (t : Table) : option Table :=
  match diffCols with
  | [] => Some t
  | dType :: rest =>
      al ← slice_set (baseIndex + dIndex) AlignRight (Alignment_ t);
      hs ← slice_set (baseIndex + dIndex) (columnHeader dType) (Headers t);
      fillHeaders baseIndex (S dIndex) rest (set_Headers hs (set_Alignment al t))
  end.

(** The loop of lines 116-130, from profile [index] on. *)
Fixpoint fillGroups (index : nat) (profiles : list Entry)
    (diffCols : list TableColumnType) (t : Table) : option Table :=
  match profiles with
  | [] => Some t
  | _ :: rest =>
      let startOffset := 1 in
      let baseIndex := startOffset + index * length diffCols in
      gs ← slice_update (startOffset + index) (set_Header (groupLabel index))
             (HeaderGroups t);
      gs ← slice_update (startOffset + index) (set_ColSpan (length diffCols)) gs;
      t' ← fillHeaders baseIndex 0 diffCols (set_HeaderGroups gs t);
      fillGroups (S index) rest diffCols t'
  end.

(** Lines 100-136.  The zero value of [util.Alignment] that [make]
    fills in does not show: every element is written afterwards. *)
Definition tabularizeDiff (profiles : list Entry)
    (entryGroupsByName : correlatedEntriesMap)
    (diffCols : list TableColumnType) (threshold : float) : option Table :=
  let t := {| Headers := make "" (length profiles * length diffCols + 1);
              HeaderGroups := make (mkHeaderGroup "" 0) (length profiles + 1);
              Alignment_ := [];
              Rows := [];
              Padding := 1 |} in
  let t := set_Alignment (make AlignLeft (length (Headers t))) t in
  al ← slice_set 0 AlignLeft (Alignment_ t);
  hs ← slice_set 0 "call stack" (Headers t);
  gs ← slice_update 0 (set_ColSpan 1) (HeaderGroups t);
  let t := set_HeaderGroups gs (set_Headers hs (set_Alignment al t)) in
  t ← fillGroups 0 profiles diffCols t;
  first ← profiles !! 0;
  populateDiffRows first (length profiles) entryGroupsByName t diffCols
    threshold.

(** *** DiffProfiles (lines 29-65) *)

(** The loop of lines 49-54: the profiles in the order of the arguments, or
    the error of the first argument that does not load. *)
Fixpoint loadProfiles (args : list string) : list Entry + error :=
  match args with
  | [] => inl []
  | arg :: rest =>
      match LoadProfile arg with
      | inr err => inr err
      | inl profile =>
          match loadProfiles rest with
          | inr err => inr err
          | inl profiles => inl (profile :: profiles)
          end
      end
  end.

(** The result of a run: what was written to standard output and the
    returned error ([None] for nil); the outer [None] is a panic. *)
Definition DiffProfiles (ctx : Context)
    : option (list StdoutWrite * option error) :=
  let args := Args ctx in
  if decide (length args < 2) then Some ([], Some errNotEnoughProfiles)
  else
    match ParseTableColumList (ctx_columns ctx) with
    | (_, Some err) => Some ([], Some err)
    | (diffCols, None) =>
        if decide (length diffCols = 0)
        then Some ([], Some errNoDiffColumnsSpecified)
        else
          let threshold := ctx_threshold ctx in
          match loadProfiles args with
          | inr err => Some ([], Some err)
          | inl profiles =>
              let correlMap := correlateEntries profiles in
              diffTable ← tabularizeDiff profiles correlMap diffCols threshold;
              let stripAnsiChars := negb IsTerminal in
              Some ([mkWrite diffTable stripAnsiChars], None)
          end
    end.

End Diff.

(** * Part II: the notions of the statements *)

#[local] Close Scope string_scope.

(** The nodes of one tree that carry [name], in pre-order. *)
Definition occurrences (name : string) (pe : Entry) : list Entry :=
  filter (λ e, Name e = name) (preorder pe).

(** What the row of [name] shows for profile [i] in a column: the cell of
    the node in the slot, or the empty string the row was made with. *)
Definition metricCell (m : gmap string (gmap nat Entry)) (name : string)
    (threshold : float) (i : nat) (dType : TableColumnType) : string :=
  match slot m name i with
  | Some e => cellOf (slot m name 0) i e threshold dType
  | None => ""%string
  end.

(** [rows] appended to the rows of [t], one by one. *)
Definition append_rows (rows : list (list string)) (t : Table) : Table :=
  foldl (λ t' row, append_row row t') t rows.

(** The header loops stay within the slices they write and leave the rows
    alone. *)
Definition headers_sized (t0 t : Table) : Prop :=
  length (Headers t) = length (Headers t0) ∧
  length (Alignment_ t) = length (Alignment_ t0) ∧
  length (HeaderGroups t) = length (HeaderGroups t0) ∧
  Rows t = Rows t0 ∧ Padding t = Padding t0.

(** The metric cells of the row of [name]: for each profile in turn, one
    cell per column. *)
Definition metricCells (m : gmap string (gmap nat Entry)) (name : string)
    (numProfiles : nat) (diffCols : list TableColumnType) (threshold : float)
    : list string :=
  i ← seq 0 numProfiles; metricCell m name threshold i <$> diffCols.

(** The depths line 143 accepts as a count of guides: not negative, and
    with the length of the guides, two characters each, within [int] (a
    depth below 2^62). *)
Definition validDepth (d : Z) : bool :=
  (0 <=? d)%Z && (2 * d <=? maxInt)%Z.

(** Every node of the tree has such a depth: [strings.Repeat] never
    panics along the tree. *)
Definition validDepths (pe : Entry) : bool :=
  forallb (λ e, validDepth (Depth e)) (preorder pe).

(** The text of the call-stack cell of a node: one guide per level of
    depth, the marker of a leaf or of a branch, and the name. *)
Definition callText (pe : Entry) : string :=
  ((copies "| " (Z.to_nat (Depth pe))
    +:+ match Children pe with [] => "- " | _ :: _ => "+ " end)
   +:+ Name pe)%string.

(** The row of a node of the first profile. *)
Definition rowOf (m : gmap string (gmap nat Entry)) (numProfiles : nat)
    (diffCols : list TableColumnType) (threshold : float) (pe : Entry)
    : list string :=
  callText pe :: metricCells m (Name pe) numProfiles diffCols threshold.

(** Every character of [s] satisfies [P]. *)
Fixpoint all_chars (P : ascii → bool) (s : string) : bool :=
  match s with
  | EmptyString => true
  | String c s' => P c && all_chars P s'
  end.

(** The characters [%f] can print: digits, the point, a sign, and the
    letters of [NaN] and [Inf]. *)
Definition numeric_char (c : ascii) : bool :=
  negb (all_chars (λ c', negb (Ascii.eqb c c')) "0123456789.-+InfNa").

(** Neither the escape character nor a percent sign. *)
Definition plain_char (c : ascii) : bool :=
  negb (Ascii.eqb c "027") && negb (Ascii.eqb c "%").

(** What [fmtDiff] returns when a comparison is made: the candidate, and
    the coloured speedup factor in parentheses. *)
Definition factorCell (candidate speedup : float) (color : string) : string :=
  (fmt_f 2 candidate +:+ " (" +:+ color +:+ fmt_f 1 speedup +:+ "x"
     +:+ reset +:+ ")")%string.

(** The profiles of the repository's tests (mockProfiles in
    diff_test.go), with the fields of [Entry]. *)
Module Mock.

Definition ms (n : Z) : Z := (n * 1000000)%Z.

Definition foo1 : Entry := mkEntry "foo" 1 (ms 120) (ms 10) (ms 110) 2 [].
Definition main1 : Entry := mkEntry "main" 0 (ms 120) (ms 120) (ms 120) 1 [foo1].
Definition foo2 : Entry := mkEntry "foo" 1 (ms 10) (ms 4) (ms 6) 2 [].
Definition main2 : Entry := mkEntry "main" 0 (ms 10) (ms 10) (ms 10) 1 [foo2].

End Mock.

Section RunNotions.

Context (ParseTableColumList : string → list TableColumnType * option error).
Context (LoadProfile : string → Entry + error).

(** No display column is resolved from the requested list: the parser
    reports an error, or the list it returns is empty. *)
Definition noColumnsResolved (ctx : Context) : Prop :=
  (ParseTableColumList (ctx_columns ctx)).2 ≠ None ∨
  (ParseTableColumList (ctx_columns ctx)).1 = [].

(** Some profile argument does not load. *)
Definition loadFails (ctx : Context) : Prop :=
  ∃ arg err, arg ∈ Args ctx ∧ LoadProfile arg = inr err.

(** The profile of the first argument, the baseline, loads and has a
    node whose depth line 143 does not accept. *)
Definition baselineDepthInvalid (ctx : Context) : Prop :=
  ∃ arg baseline,
    head (Args ctx) = Some arg ∧ LoadProfile arg = inl baseline ∧
    validDepths baseline = false.

End RunNotions.

#[local] Open Scope float_scope.

(** The display units of the spec (section 4.3), for the comparison with
    what the code renders: the divisor and the suffix of a fixed unit. *)
Module Spec.

Inductive DisplayUnit : Type := UnitNs | UnitUs | UnitMs.

Definition divisor (u : DisplayUnit) : float :=
  match u with UnitNs => 1 | UnitUs => 1.0e3 | UnitMs => 1.0e6 end.

Definition suffix (u : DisplayUnit) : string :=
  match u with UnitNs => "ns" | UnitUs => "us" | UnitMs => "ms" end%string.

End Spec.

(** The value a duration column renders for a node, as lines 155-158
    compute it; the invocations column is not a duration. *)
Definition durationValue (dType : TableColumnType) (e : Entry)
    : option float :=
  match dType with
  | TableColTotal => Some (float64_of_int (TotalTime e) / 1.0e6)
  | TableColAvg =>
      Some (float64_of_int (TotalTime e)
            / float64_of_int (int_mul (Invocations e) 1000000))
  | TableColMin => Some (float64_of_int (MinTime e) / 1.0e6)
  | TableColMax => Some (float64_of_int (MaxTime e) / 1.0e6)
  | TableColInvocations => None
  end.

(** The annotations of a duration cell: no baseline, below the
    threshold, or a coloured factor. *)
Definition annotation (note : string) : Prop :=
  note = "---"%string ∨ note = "--"%string ∨
  ∃ s, note = (colorOf s +:+ fmt_f 1 s +:+ "x" +:+ reset)%string.

(** Neither a number nor zero: NaN or an infinity. *)
Definition non_finite (x : float) : bool :=
  match Prim2SF x with
  | S754_nan | S754_infinity _ => true
  | S754_zero _ | S754_finite _ _ _ => false
  end.

(** No character of [s] is the escape character: [s] holds no colour
    sequence. *)
Definition escape_free (s : string) : bool :=
  all_chars (λ c, negb (Ascii.eqb c "027")) s.

#[local] Close Scope float_scope.

(** * Part III: properties *)

(** ** Call trees *)

(** Induction over call trees, with the hypothesis for every child. *)
Lemma Entry_tree_ind (P : Entry → Prop) :
  (∀ pe, Forall P (Children pe) → P pe) → ∀ pe, P pe.
Proof.
  intros IH. fix REC 1. intros [n d tt mn mx inv cs]. apply IH. simpl.
  induction cs as [|c cs IHcs]; constructor; [apply REC | exact IHcs].
Qed.


(** ** The correlation map *)

Section Correlation.

Implicit Types (m : gmap string (gmap nat Entry)) (pe e : Entry).
Implicit Types (name : string) (i profileId : nat).

Lemma slot_recordEntry profileId e m name i :
  slot (recordEntry profileId e m) name i =
    if decide (Name e = name ∧ profileId = i) then Some e else slot m name i.
Proof.
  unfold slot, group, recordEntry.
  destruct (decide (Name e = name)) as [Hn|Hn];
    [subst name|destruct (m !! Name e)];
    [|by rewrite lookup_insert_ne, decide_False by tauto..].
  destruct (decide (profileId = i)) as [Hi|Hi];
    [subst i; rewrite decide_True by done|rewrite decide_False by tauto].
  - destruct (m !! Name e); rewrite lookup_insert_eq; simpl.
    + apply lookup_insert_eq.
    + apply lookup_singleton_eq.
  - destruct (m !! Name e) as [list|]; rewrite lookup_insert_eq; simpl.
    + by rewrite lookup_insert_ne.
    + by rewrite lookup_singleton_ne.
Qed.

Lemma dom_recordEntry profileId e m :
  dom (recordEntry profileId e m) = {[Name e]} ∪ dom m.
Proof.
  unfold recordEntry. destruct (m !! Name e); by rewrite dom_insert_L.
Qed.

(** The recursion of [populateEntryGroups] visits the nodes in pre-order. *)
Lemma populateEntryGroups_preorder profileId pe m :
  populateEntryGroups profileId pe m =
    foldl (λ m' e, recordEntry profileId e m') m (preorder pe).
Proof.
  revert m. induction pe as [pe IH] using Entry_tree_ind. intros m.
  destruct pe as [n d tt mn mx inv cs]. simpl in *.
  generalize (recordEntry profileId (mkEntry n d tt mn mx inv cs) m).
  clear m. induction IH as [|c cs' Hc _ IHcs]; intros m; [done|].
  simpl. rewrite foldl_app, <- Hc. apply IHcs.
Qed.

Lemma slot_foldl_recordEntry profileId (es : list Entry) m name i :
  slot (foldl (λ m' e, recordEntry profileId e m') m es) name i =
    if decide (profileId = i)
    then from_option Some (slot m name i)
           (last (filter (λ e, Name e = name) es))
    else slot m name i.
Proof.
  induction es as [|e es IH] using rev_ind; simpl.
  - by destruct (decide _).
  - rewrite foldl_app. simpl. rewrite slot_recordEntry, IH, filter_app.
    destruct (decide (profileId = i)) as [->|Hi].
    + rewrite filter_cons, filter_nil.
      destruct (decide (Name e = name)) as [Hn|Hn].
      * rewrite decide_True by done. by rewrite last_snoc.
      * rewrite decide_False by tauto. by rewrite app_nil_r.
    + rewrite decide_False by tauto. done.
Qed.

Lemma dom_foldl_recordEntry profileId (es : list Entry) m :
  dom (foldl (λ m' e, recordEntry profileId e m') m es) =
    list_to_set (Name <$> es) ∪ dom m.
Proof.
  revert m. induction es as [|e es IH]; intros m; simpl.
  - set_solver.
  - rewrite IH, dom_recordEntry. set_solver.
Qed.

Lemma slot_correlateFrom (profiles : list Entry) k m name i :
  slot (correlateFrom k profiles m) name i =
    if decide (k ≤ i)
    then from_option Some (slot m name i)
           (profiles !! (i - k) ≫= λ p, last (occurrences name p))
    else slot m name i.
Proof.
  revert k m. induction profiles as [|p ps IH]; intros k m; simpl.
  - by destruct (decide _).
  - rewrite IH, populateEntryGroups_preorder, slot_foldl_recordEntry.
    destruct (decide (S k ≤ i)) as [Hle|Hle].
    + rewrite decide_False by lia. rewrite decide_True by lia.
      replace (i - k) with (S (i - S k)) by lia. simpl.
      by destruct (ps !! (i - S k) ≫= _).
    + destruct (decide (k = i)) as [->|Hki].
      * rewrite decide_True by lia. rewrite Nat.sub_diag. simpl.
        unfold occurrences. by destruct (last _).
      * rewrite decide_False by lia. done.
Qed.

Lemma dom_correlateFrom (profiles : list Entry) k m :
  dom (correlateFrom k profiles m) =
    list_to_set (Name <$> (profiles ≫= preorder)) ∪ dom m.
Proof.
  revert k m. induction profiles as [|p ps IH]; intros k m; simpl.
  - set_solver.
  - rewrite IH, populateEntryGroups_preorder, dom_foldl_recordEntry.
    rewrite fmap_app, list_to_set_app_L. set_solver.
Qed.

(** The slot of profile [i] for [name] holds the last node of that name
    in the pre-order of the tree of profile [i], and is empty when there
    is no such node or no such profile. *)
Lemma slot_correlateEntries (profiles : list Entry) name i :
  slot (correlateEntries profiles) name i =
    profiles !! i ≫= λ p, last (occurrences name p).
Proof.
  unfold correlateEntries. rewrite slot_correlateFrom.
  rewrite decide_True by lia. rewrite Nat.sub_0_r.
  destruct (profiles !! i ≫= _); [done|].
  unfold slot, group. by rewrite lookup_empty.
Qed.

Lemma dom_correlateEntries (profiles : list Entry) :
  dom (correlateEntries profiles) =
    list_to_set (Name <$> (profiles ≫= preorder)).
Proof.
  unfold correlateEntries. rewrite dom_correlateFrom. set_solver.
Qed.

Lemma last_occurrences_is_Some name pe :
  is_Some (last (occurrences name pe)) ↔
  ∃ e, e ∈ preorder pe ∧ Name e = name.
Proof.
  unfold occurrences. split.
  - intros [e He]. exists e. apply last_Some_elem_of in He.
    by apply list_elem_of_filter in He as [? ?].
  - intros (e & He & Hn).
    assert (Hin : e ∈ filter (λ e, Name e = name) (preorder pe))
      by by apply list_elem_of_filter.
    destruct (filter _ _) as [|x l] using rev_ind.
    + by apply not_elem_of_nil in Hin.
    + rewrite last_snoc. eauto.
Qed.

End Correlation.

(** *** The rows and slots of the correlation map *)

Lemma size_list_to_set_remove_dups (l : list string) :
  size (list_to_set l : gset string) = length (remove_dups l).
Proof.
  rewrite <- (size_list_to_set (C := gset string) (remove_dups l))
    by apply NoDup_remove_dups.
  f_equal. apply set_eq. intros x.
  by rewrite !elem_of_list_to_set, elem_of_remove_dups.
Qed.

(** C1. The correlation map has exactly one entry per distinct function
    name of the trees (its keys are the names that occur in some tree, and
    their number is the number of distinct names), and in the entry of a
    name the slot of profile [i] is populated if and only if the tree of
    profile [i] has a node of that name.  Nothing is assumed of the shapes
    of the trees; the list of profiles may be any list, the non-empty ones
    included. *)
Theorem correlateEntries_one_entry_per_name (profiles : list Entry) :
  let m := correlateEntries profiles in
  (∀ name, is_Some (m !! name) ↔
     ∃ p e, p ∈ profiles ∧ e ∈ preorder p ∧ Name e = name) ∧
  size m = length (remove_dups (Name <$> (profiles ≫= preorder))) ∧
  (∀ name row i, m !! name = Some row →
     (is_Some (row !! i) ↔
      ∃ p e, profiles !! i = Some p ∧ e ∈ preorder p ∧ Name e = name)).
Proof.
  intros m. split; [|split].
  - intros name. rewrite <- elem_of_dom. unfold m.
    rewrite dom_correlateEntries, elem_of_list_to_set, list_elem_of_fmap.
    split.
    + intros (e & -> & He). apply list_elem_of_bind in He as (p & He & Hp).
      eauto.
    + intros (p & e & Hp & He & <-). exists e. split; [done|].
      apply list_elem_of_bind. eauto.
  - rewrite <- size_dom. unfold m. rewrite dom_correlateEntries.
    apply size_list_to_set_remove_dups.
  - intros name row i Hrow.
    assert (Hslot : row !! i = slot m name i)
      by (unfold slot, group; by rewrite Hrow).
    rewrite Hslot. unfold m. rewrite slot_correlateEntries.
    destruct (profiles !! i) as [p|]; simpl.
    + rewrite last_occurrences_is_Some. split.
      * intros (e & He & Hn). eauto.
      * intros (p' & e & [= <-] & He & Hn). eauto.
    + split; [by intros [? ?]|]. by intros (p' & e & [=] & _).
Qed.

(** C3. Where the tree of profile [i] has several nodes of one name, the
    slot of that name and profile holds the one visited last in pre-order:
    a node [e] of that name after which no node of the name follows. *)
Theorem correlateEntries_last_write_wins
    (profiles : list Entry) (i : nat) (p : Entry) (name : string)
    (before : list Entry) (e : Entry) (after : list Entry) :
  profiles !! i = Some p →
  preorder p = before ++ e :: after →
  Name e = name →
  (∀ e', e' ∈ after → Name e' ≠ name) →
  slot (correlateEntries profiles) name i = Some e.
Proof.
  intros Hp Hpre Hn Hafter. rewrite slot_correlateEntries, Hp. simpl.
  unfold occurrences. rewrite Hpre, filter_app, filter_cons.
  rewrite decide_True by done.
  replace (filter (λ e0, Name e0 = name) after) with (@nil Entry).
  - by rewrite last_snoc.
  - symmetry. clear Hpre. induction after as [|a after IH]; [done|].
    rewrite filter_cons, decide_False by (apply Hafter; left).
    apply IH. intros e' He'. apply Hafter. by right.
Qed.

(** ** Slices and the option monad *)

Lemma slice_set_Some {T : Type} (i : nat) (v : T) (s : list T) :
  i < length s → slice_set i v s = Some (<[i := v]> s).
Proof. intros Hi. unfold slice_set. by rewrite decide_True. Qed.

Lemma slice_update_Some {T : Type} (i : nat) (f : T → T) (s : list T) :
  i < length s → ∃ x, s !! i = Some x ∧ slice_update i f s = Some (<[i := f x]> s).
Proof.
  intros Hi. destruct (lookup_lt_is_Some_2 s i Hi) as [x Hx].
  exists x. split; [done|]. unfold slice_update. by rewrite Hx.
Qed.

Lemma mapM_app_Some {A B : Type} (f : A → option B) (l1 l2 : list A) :
  mapM f (l1 ++ l2) = k1 ← mapM f l1; k2 ← mapM f l2; Some (k1 ++ k2).
Proof.
  induction l1 as [|x l1 IH]; simpl.
  - by destruct (mapM f l2).
  - destruct (f x) as [y|]; simpl; [|done]. rewrite IH.
    destruct (mapM f l1) as [k1|]; simpl; [|done].
    by destruct (mapM f l2).
Qed.

(** ** The cells of a row *)


Section Rows.

Implicit Types (row : list string) (diffCols : list TableColumnType).
Implicit Types (entries : list (nat * Entry)).

Lemma fillCells_spec cell baseIndex dIndex diffCols row :
  baseIndex + dIndex + length diffCols ≤ length row →
  ∃ row', fillCells cell baseIndex dIndex diffCols row = Some row' ∧
    length row' = length row ∧
    (∀ j, j < length diffCols →
       row' !! (baseIndex + dIndex + j) = cell <$> diffCols !! j) ∧
    (∀ k, ¬ (baseIndex + dIndex ≤ k < baseIndex + dIndex + length diffCols) →
       row' !! k = row !! k).
Proof.
  revert dIndex row.
  induction diffCols as [|dType rest IH]; intros dIndex row Hlen; simpl in *.
  - exists row. split; [done|]. split; [done|]. split; [intros; lia | done].
  - rewrite slice_set_Some by lia. simpl.
    destruct (IH (S dIndex) (<[baseIndex + dIndex := cell dType]> row))
      as (row' & Hrun & Hlen' & Hin & Hout).
    { rewrite length_insert. lia. }
    exists row'. rewrite length_insert in Hlen'.
    split; [done|]. split; [done|]. split.
    + intros [|j] Hj.
      * rewrite Hout by lia. rewrite Nat.add_0_r.
        by rewrite list_lookup_insert_eq by lia.
      * replace (baseIndex + dIndex + S j) with (baseIndex + S dIndex + j)
          by lia.
        apply Hin. lia.
    + intros k Hk. rewrite Hout by lia.
      apply list_lookup_insert_ne. lia.
Qed.

Lemma fillRow_spec baseLine diffCols threshold entries numProfiles row :
  NoDup entries.*1 →
  (∀ i e, (i, e) ∈ entries → i < numProfiles) →
  length row = numProfiles * length diffCols + 1 →
  ∃ row', fillRow baseLine diffCols threshold entries row = Some row' ∧
    length row' = length row ∧
    (∀ i e j, (i, e) ∈ entries → j < length diffCols →
       row' !! (i * length diffCols + 1 + j) =
         cellOf baseLine i e threshold <$> diffCols !! j) ∧
    (∀ k, (∀ i e, (i, e) ∈ entries →
             ¬ (i * length diffCols + 1 ≤ k
                < i * length diffCols + 1 + length diffCols)) →
       row' !! k = row !! k).
Proof.
  revert row.
  induction entries as [|[i0 e0] rest IH]; intros row Hnd Hlt Hlen; simpl.
  - exists row. split; [done|]. split; [done|]. split; [|done].
    intros i e j Hin. by apply elem_of_nil in Hin.
  - apply NoDup_cons in Hnd as [Hfresh Hnd]. simpl in Hfresh.
    assert (Hi0 : i0 < numProfiles) by (apply (Hlt i0 e0); left).
    destruct (fillCells_spec (cellOf baseLine i0 e0 threshold)
                (i0 * length diffCols + 1) 0 diffCols row)
      as (row1 & Hrun1 & Hlen1 & Hin1 & Hout1); [nia|].
    rewrite Hrun1. simpl.
    destruct (IH row1 Hnd) as (row' & Hrun & Hlen' & Hin & Hout).
    { intros i e Hie. apply (Hlt i e). by right. }
    { by rewrite Hlen1. }
    exists row'. split; [done|]. split; [by rewrite Hlen', Hlen1|]. split.
    + intros i e j Hie Hj. apply elem_of_cons in Hie as [[= -> ->]|Hie].
      * rewrite Hout.
        -- specialize (Hin1 j Hj). by rewrite Nat.add_0_r in Hin1.
        -- intros i e Hie. assert (i ≠ i0); [|nia].
           intros ->. apply Hfresh. apply list_elem_of_fmap.
           by exists (i0, e).
      * by apply (Hin i e j).
    + intros k Hk. rewrite Hout.
      * apply Hout1. rewrite Nat.add_0_r. apply (Hk i0 e0). left.
      * intros i e Hie. apply (Hk i e). by right.
Qed.

(** Go hands out the entries of a map in no fixed order; the loop of
    line 154 writes disjoint cells, so the row is the same for every
    order. *)
Lemma fillRow_order_irrelevant baseLine diffCols threshold entries entries'
    numProfiles row :
  entries ≡ₚ entries' →
  NoDup entries.*1 →
  (∀ i e, (i, e) ∈ entries → i < numProfiles) →
  length row = numProfiles * length diffCols + 1 →
  fillRow baseLine diffCols threshold entries row
  = fillRow baseLine diffCols threshold entries' row.
Proof.
  intros Hperm Hnd Hlt Hlen.
  destruct (fillRow_spec baseLine diffCols threshold entries numProfiles row
              Hnd Hlt Hlen) as (r1 & -> & Hl1 & Hin1 & Hout1).
  destruct (fillRow_spec baseLine diffCols threshold entries' numProfiles row)
    as (r2 & -> & Hl2 & Hin2 & Hout2); [| |done|].
  { by rewrite <- Hperm. }
  { intros i e Hie. apply (Hlt i e). by rewrite Hperm. }
  f_equal. apply list_eq. intros k.
  set (inblock := λ ie : nat * Entry,
         ie.1 * length diffCols + 1 ≤ k
         < ie.1 * length diffCols + 1 + length diffCols).
  destruct (decide (Exists inblock entries)) as [Hex|Hex].
  - apply Exists_exists in Hex as ([i e] & Hie & Hk). unfold inblock in Hk.
    simpl in Hk.
    replace k with (i * length diffCols + 1 + (k - (i * length diffCols + 1)))
      by lia.
    rewrite (Hin1 i e), (Hin2 i e); [done| |lia|done|lia].
    by rewrite <- Hperm.
  - rewrite Hout1, Hout2; [done| |].
    + intros i e Hie Hk. apply Hex. apply Exists_exists.
      exists (i, e). split; [by rewrite Hperm|done].
    + intros i e Hie Hk. apply Hex. apply Exists_exists. by exists (i, e).
Qed.

(** [strings.Repeat] on the guide of two characters returns exactly for
    the depths of [validDepth]. *)
Lemma strings_Repeat_guides (d : Z) :
  strings_Repeat "| " d
  = if validDepth d then Some (copies "| " (Z.to_nat d)) else None.
Proof.
  unfold strings_Repeat, validDepth, maxInt.
  change (Z.of_nat (String.length "| ")) with 2%Z.
  destruct (decide (d < 0)%Z) as [Hneg|Hneg].
  - by rewrite (proj2 (Z.leb_gt 0 d)) by lia.
  - rewrite (proj2 (Z.leb_le 0 d)) by lia. simpl.
    destruct (decide (9223372036854775807 < 2 * d)%Z) as [Hbig|Hbig].
    + by rewrite (proj2 (Z.leb_gt (2 * d) _)) by lia.
    + by rewrite (proj2 (Z.leb_le (2 * d) _)) by lia.
Qed.

(** The depths that are no count: the negative ones, and those from 2^62
    on. *)
Lemma validDepth_false (d : Z) :
  validDepth d = false ↔ (d < 0 ∨ 2 ^ 62 ≤ d)%Z.
Proof.
  unfold validDepth, maxInt. rewrite andb_false_iff, !Z.leb_gt. lia.
Qed.

Lemma validDepth_true (d : Z) :
  validDepth d = true ↔ (0 ≤ d < 2 ^ 62)%Z.
Proof.
  unfold validDepth, maxInt. rewrite andb_true_iff, !Z.leb_le. lia.
Qed.

(** The call-stack cell exists exactly for a depth that is a count, and
    is then the text of the node. *)
Lemma callCell_callText (pe : Entry) :
  callCell pe
  = if validDepth (Depth pe) then Some (callText pe) else None.
Proof.
  unfold callCell, callText. rewrite strings_Repeat_guides.
  destruct (validDepth (Depth pe)); simpl; [|done].
  by destruct (Children pe).
Qed.

Lemma callCell_Some (pe : Entry) :
  validDepth (Depth pe) = true → callCell pe = Some (callText pe).
Proof. intros Hd. by rewrite callCell_callText, Hd. Qed.

Lemma callCell_None (pe : Entry) :
  callCell pe = None ↔ validDepth (Depth pe) = false.
Proof. rewrite callCell_callText. by destruct (validDepth (Depth pe)). Qed.

(** A node whose depth is no count has no row: line 143 panics. *)
Lemma buildRow_invalid_depth pe numProfiles
    (m : gmap string (gmap nat Entry)) diffCols threshold :
  validDepth (Depth pe) = false →
  buildRow pe numProfiles m diffCols threshold = None.
Proof.
  intros Hd. unfold buildRow.
  by rewrite (proj2 (callCell_None pe) Hd).
Qed.

(** For a depth that is a count the row is the one made with the text of
    the node in its first cell. *)
Lemma buildRow_valid_depth pe numProfiles
    (m : gmap string (gmap nat Entry)) diffCols threshold :
  validDepth (Depth pe) = true →
  buildRow pe numProfiles m diffCols threshold
  = fillRow (slot m (Name pe) 0) diffCols threshold
      (map_to_list (group m (Name pe)))
      (<[0 := callText pe]>
         (make ""%string (numProfiles * length diffCols + 1))).
Proof.
  intros Hd. unfold buildRow. rewrite (callCell_Some pe Hd). simpl.
  rewrite slice_set_Some by (unfold make; rewrite length_replicate; lia).
  done.
Qed.

(** The row of a node: the call-stack cell first, then one block per
    profile with one cell per column, each cell determined by the name of
    the node alone. *)
Lemma buildRow_spec pe numProfiles (m : gmap string (gmap nat Entry))
    diffCols threshold :
  validDepth (Depth pe) = true →
  (∀ i e, slot m (Name pe) i = Some e → i < numProfiles) →
  ∃ row, buildRow pe numProfiles m diffCols threshold = Some row ∧
    length row = numProfiles * length diffCols + 1 ∧
    row !! 0 = Some (callText pe) ∧
    ∀ i j, i < numProfiles → j < length diffCols →
      row !! (i * length diffCols + 1 + j) =
        metricCell m (Name pe) threshold i <$> diffCols !! j.
Proof.
  intros Hdepth Hbound. rewrite buildRow_valid_depth by done.
  set (n := numProfiles * length diffCols + 1).
  destruct (fillRow_spec (slot m (Name pe) 0) diffCols threshold
              (map_to_list (group m (Name pe))) numProfiles
              (<[0 := callText pe]> (make ""%string n)))
    as (row & Hrun & Hlen & Hin & Hout).
  { apply NoDup_fst_map_to_list. }
  { intros i e Hie. apply elem_of_map_to_list in Hie. by apply (Hbound i e). }
  { unfold make. by rewrite length_insert, length_replicate. }
  unfold make in *. rewrite length_insert, length_replicate in Hlen.
  exists row. split; [done|]. split; [done|]. split.
  - rewrite Hout by (intros; lia).
    apply list_lookup_insert_eq. rewrite length_replicate. lia.
  - intros i j Hi Hj. unfold metricCell.
    destruct (slot m (Name pe) i) as [e|] eqn:Hslot.
    + apply Hin; [|done]. by apply elem_of_map_to_list.
    + rewrite Hout.
      * rewrite list_lookup_insert_ne by lia.
        rewrite lookup_replicate_2 by (unfold n; nia).
        destruct (lookup_lt_is_Some_2 diffCols j Hj) as [d ->]. done.
      * intros i' e' Hie. apply elem_of_map_to_list in Hie.
        assert (i' ≠ i); [|nia]. intros ->. unfold slot in Hslot. congruence.
Qed.

End Rows.

(** ** The rows of the table *)


Lemma Rows_append_rows rows t : Rows (append_rows rows t) = Rows t ++ rows.
Proof.
  revert t. induction rows as [|row rows IH]; intros t; simpl.
  - by rewrite app_nil_r.
  - unfold append_rows in *. simpl. rewrite IH. simpl. by rewrite <- app_assoc.
Qed.

Lemma append_rows_keeps (rows : list (list string)) (t : Table) :
  Headers (append_rows rows t) = Headers t ∧
  Alignment_ (append_rows rows t) = Alignment_ t ∧
  HeaderGroups (append_rows rows t) = HeaderGroups t ∧
  Padding (append_rows rows t) = Padding t.
Proof.
  revert t. unfold append_rows.
  induction rows as [|r rows IH]; intros t; simpl; [done|].
  destruct (IH (append_row r t)) as (-> & -> & -> & ->). done.
Qed.

Lemma append_rows_app rows1 rows2 t :
  append_rows (rows1 ++ rows2) t = append_rows rows2 (append_rows rows1 t).
Proof. apply foldl_app. Qed.

(** [populateDiffRows] appends the rows of the nodes in pre-order. *)
Lemma populateDiffRows_preorder pe numProfiles
    (m : gmap string (gmap nat Entry)) t diffCols threshold :
  populateDiffRows pe numProfiles m t diffCols threshold =
    rows ← mapM (λ e, buildRow e numProfiles m diffCols threshold)
           (preorder pe);
    Some (append_rows rows t).
Proof.
  revert t. induction pe as [pe IH] using Entry_tree_ind. intros t.
  destruct pe as [n d tt mn mx inv cs]. simpl in *.
  destruct (buildRow _ numProfiles m diffCols threshold) as [row|];
    simpl; [|done].
  assert (Hloop : ∀ t0,
    (fix children (cs0 : list Entry) (t1 : Table) : option Table :=
       match cs0 with
       | [] => Some t1
       | child :: cs' =>
           t' ← populateDiffRows child numProfiles m t1 diffCols threshold;
           children cs' t'
       end) cs t0 =
    rows ← mapM (λ e, buildRow e numProfiles m diffCols threshold)
           (flat_map preorder cs);
    Some (append_rows rows t0)).
  { induction IH as [|c cs' Hc _ IHcs]; intros t0; simpl; [done|].
    rewrite Hc, mapM_app_Some.
    destruct (mapM _ (preorder c)) as [rows1|]; simpl; [|done].
    rewrite IHcs.
    destruct (mapM _ (flat_map preorder cs')) as [rows2|]; simpl; [|done].
    by rewrite append_rows_app. }
  rewrite Hloop.
  by destruct (mapM _ (flat_map preorder cs)).
Qed.

(** A tree of valid depths: every node, in pre-order. *)
Lemma validDepths_spec (pe : Entry) :
  validDepths pe = true ↔
  ∀ e, e ∈ preorder pe → validDepth (Depth e) = true.
Proof.
  unfold validDepths. rewrite forallb_forall. split.
  - intros H e He. apply H. by apply list_elem_of_In.
  - intros H e He. apply H. by apply list_elem_of_In.
Qed.

Lemma validDepths_elem (pe e : Entry) :
  validDepths pe = true → e ∈ preorder pe → validDepth (Depth e) = true.
Proof. intros H. by apply validDepths_spec. Qed.

(** Otherwise some node, in pre-order, has a depth that is no count. *)
Lemma validDepths_false (pe : Entry) :
  validDepths pe = false ↔
  ∃ e, e ∈ preorder pe ∧ validDepth (Depth e) = false.
Proof.
  split.
  - intros H.
    destruct (decide (Exists (λ e, validDepth (Depth e) = false)
                        (preorder pe))) as [Hex|Hex].
    + apply Exists_exists in Hex. done.
    + assert (validDepths pe = true); [|congruence].
      apply validDepths_spec. intros e He.
      destruct (validDepth (Depth e)) eqn:Hd; [done|]. exfalso. apply Hex.
      apply Exists_exists. by exists e.
  - intros (e & He & Hd).
    destruct (validDepths pe) eqn:Hok; [|done].
    pose proof (validDepths_elem pe e Hok He). congruence.
Qed.

(** Unfolds the field updates of a table under the projections. *)
Ltac table_simpl :=
  unfold set_Headers, set_Alignment, set_HeaderGroups, append_row in *;
  cbn [Headers Alignment_ HeaderGroups Rows Padding] in *.

Section Table.

Context (columnHeader : TableColumnType → string).

Implicit Types (t : Table) (diffCols : list TableColumnType).


Lemma fillHeaders_spec baseIndex dIndex diffCols t :
  baseIndex + dIndex + length diffCols ≤ length (Headers t) →
  length (Alignment_ t) = length (Headers t) →
  ∃ t', fillHeaders columnHeader baseIndex dIndex diffCols t = Some t' ∧
    headers_sized t t'.
Proof.
  revert dIndex t.
  induction diffCols as [|dType rest IH]; intros dIndex t Hlen Hal; simpl in *.
  - by exists t.
  - rewrite !slice_set_Some by lia. simpl.
    edestruct (IH (S dIndex)) as (t' & -> & H1 & H2 & H3 & H4 & H5);
      [table_simpl; rewrite length_insert; lia
      |table_simpl; by rewrite !length_insert|].
    exists t'. split; [done|]. table_simpl.
    rewrite length_insert in H1. rewrite length_insert in H2.
    by repeat split.
Qed.

Lemma fillGroups_spec index (profiles : list Entry) diffCols t :
  (index + length profiles) * length diffCols + 1 ≤ length (Headers t) →
  length (Alignment_ t) = length (Headers t) →
  index + length profiles + 1 ≤ length (HeaderGroups t) →
  ∃ t', fillGroups columnHeader index profiles diffCols t = Some t' ∧
    headers_sized t t'.
Proof.
  revert index t.
  induction profiles as [|p ps IH]; intros index t Hh Hal Hg; simpl in *.
  - by exists t.
  - destruct (slice_update_Some (S index) (set_Header (groupLabel index))
                (HeaderGroups t)) as (g & _ & ->); [lia|]. simpl.
    edestruct (slice_update_Some (S index) (set_ColSpan (length diffCols)))
      as (g' & _ & ->); [rewrite length_insert; lia|]. simpl.
    edestruct (fillHeaders_spec (S (index * length diffCols)) 0 diffCols)
      as (t1 & -> & H1 & H2 & H3 & H4 & H5);
      [table_simpl; nia|table_simpl; done|].
    table_simpl. rewrite !length_insert in H3. cbn [mbind option_bind].
    destruct (IH (S index) t1) as (t' & -> & K1 & K2 & K3 & K4 & K5);
      [nia|congruence|lia|].
    exists t'. split; [done|]. unfold headers_sized. repeat split; congruence.
Qed.

Lemma fillHeaders_content baseIndex dIndex diffCols t t' :
  baseIndex + dIndex + length diffCols ≤ length (Headers t) →
  length (Alignment_ t) = length (Headers t) →
  fillHeaders columnHeader baseIndex dIndex diffCols t = Some t' →
  HeaderGroups t' = HeaderGroups t ∧
  (∀ j, j < length diffCols →
     Headers t' !! (baseIndex + dIndex + j) = columnHeader <$> diffCols !! j ∧
     Alignment_ t' !! (baseIndex + dIndex + j) = Some AlignRight) ∧
  (∀ k, k < baseIndex + dIndex →
     Headers t' !! k = Headers t !! k ∧
     Alignment_ t' !! k = Alignment_ t !! k).
Proof.
  revert dIndex t.
  induction diffCols as [|dType rest IH]; intros dIndex t Hlen Hal Hrun;
    simpl in *.
  - injection Hrun as <-. split; [done|]. split; [intros; lia|done].
  - rewrite !slice_set_Some in Hrun by lia. simpl in Hrun.
    apply IH in Hrun as (Hg & Hin & Hout);
      [|table_simpl; rewrite length_insert; lia
       |table_simpl; by rewrite !length_insert].
    table_simpl. split; [done|]. split.
    + intros [|j] Hj.
      * destruct (Hout (baseIndex + dIndex + 0)) as [-> ->]; [lia|].
        rewrite Nat.add_0_r.
        by rewrite !list_lookup_insert_eq by lia.
      * replace (baseIndex + dIndex + S j) with (baseIndex + S dIndex + j)
          by lia.
        apply Hin. lia.
    + intros k Hk. destruct (Hout k) as [-> ->]; [lia|].
      by rewrite !list_lookup_insert_ne by lia.
Qed.

Lemma fillGroups_content index (profiles : list Entry) diffCols t t' :
  (index + length profiles) * length diffCols + 1 ≤ length (Headers t) →
  length (Alignment_ t) = length (Headers t) →
  index + length profiles + 1 ≤ length (HeaderGroups t) →
  fillGroups columnHeader index profiles diffCols t = Some t' →
  (∀ i j, index ≤ i < index + length profiles → j < length diffCols →
     Headers t' !! (i * length diffCols + 1 + j)
       = columnHeader <$> diffCols !! j ∧
     Alignment_ t' !! (i * length diffCols + 1 + j) = Some AlignRight) ∧
  (∀ k, k < index * length diffCols + 1 →
     Headers t' !! k = Headers t !! k ∧
     Alignment_ t' !! k = Alignment_ t !! k) ∧
  (∀ i, index ≤ i < index + length profiles →
     HeaderGroups t' !! (S i)
       = Some (mkHeaderGroup (groupLabel i) (length diffCols))) ∧
  (∀ k, k < S index → HeaderGroups t' !! k = HeaderGroups t !! k).
Proof.
  revert index t.
  induction profiles as [|p ps IH]; intros index t Hh Hal Hg Hrun;
    simpl in *.
  - injection Hrun as <-. split; [intros; lia|]. split; [done|].
    split; [intros; lia|done].
  - destruct (slice_update_Some (S index) (set_Header (groupLabel index))
                (HeaderGroups t)) as (g & Hg0 & Hu1); [lia|].
    rewrite Hu1 in Hrun. simpl in Hrun.
    unfold slice_update in Hrun.
    rewrite list_lookup_insert_eq in Hrun by lia. simpl in Hrun.
    rewrite list_insert_insert_eq in Hrun.
    destruct (fillHeaders columnHeader (S (index * length diffCols)) 0
                diffCols _) as [t1|] eqn:Hfill; [|done].
    simpl in Hrun.
    match type of Hfill with
    | fillHeaders _ _ _ _ ?t0 = _ =>
        destruct (fillHeaders_spec (S (index * length diffCols)) 0 diffCols t0)
          as (t1' & Hfill' & S1 & S2 & S3 & _);
          [table_simpl; nia|table_simpl; done|]
    end.
    rewrite Hfill in Hfill'. injection Hfill' as <-.
    apply fillHeaders_content in Hfill as (F1 & F2 & F3);
      [|table_simpl; nia|table_simpl; done].
    table_simpl. rewrite length_insert in S3.
    apply IH in Hrun as (I1 & I2 & I3 & I4); [|nia|congruence|lia].
    split; [|split; [|split]].
    + intros i j Hi Hj. destruct (decide (i = index)) as [->|Hne].
      * destruct (I2 (index * length diffCols + 1 + j)) as [-> ->]; [nia|].
        replace (index * length diffCols + 1 + j)
          with (S (index * length diffCols) + 0 + j) by lia.
        by apply F2.
      * apply I1; lia.
    + intros k Hk. destruct (I2 k) as [-> ->]; [nia|]. apply F3. lia.
    + intros i Hi. destruct (decide (i = index)) as [->|Hne].
      * rewrite I4 by lia. rewrite F1.
        by rewrite list_lookup_insert_eq by lia.
      * apply I3. lia.
    + intros k Hk. rewrite I4 by lia. rewrite F1.
      by rewrite list_lookup_insert_ne by lia.
Qed.

(** For a list of profiles that is not empty the header loops of
    [tabularizeDiff] always run to their end; what is left is the rows of
    the nodes of the first profile, in pre-order, and the table is returned
    when each of them is. *)
Lemma tabularizeDiff_mapM (first : Entry) (rest : list Entry)
    (m : gmap string (gmap nat Entry)) diffCols threshold :
  ∃ t1,
    Rows t1 = [] ∧
    length (Headers t1) = length (first :: rest) * length diffCols + 1 ∧
    length (Alignment_ t1) = length (Headers t1) ∧
    length (HeaderGroups t1) = length (first :: rest) + 1 ∧
    tabularizeDiff columnHeader (first :: rest) m diffCols threshold
    = rows ← mapM (λ e, buildRow e (length (first :: rest)) m diffCols
                          threshold) (preorder first);
      Some (append_rows rows t1).
Proof.
  unfold tabularizeDiff.
  set (profiles := first :: rest) in *.
  set (n := length profiles * length diffCols + 1).
  cbn [Headers Alignment_ HeaderGroups set_Alignment].
  unfold make. rewrite !length_replicate.
  rewrite !slice_set_Some by (rewrite length_replicate; unfold n; lia).
  simpl option_bind. cbn [mbind option_bind].
  edestruct (slice_update_Some 0 (set_ColSpan 1)
               (replicate (length profiles + 1) (mkHeaderGroup ""%string 0)))
    as (g & _ & ->); [rewrite length_replicate; lia|].
  cbn [mbind option_bind].
  edestruct (fillGroups_spec 0 profiles diffCols)
    as (t1 & -> & H1 & H2 & H3 & H4 & H5).
  { cbn [Headers set_HeaderGroups set_Headers set_Alignment].
    rewrite length_insert, length_replicate. unfold n. lia. }
  { cbn [Headers Alignment_ set_HeaderGroups set_Headers set_Alignment].
    by rewrite !length_insert, !length_replicate. }
  { cbn [HeaderGroups set_HeaderGroups set_Headers set_Alignment].
    rewrite length_insert, length_replicate. lia. }
  cbn [Headers Alignment_ HeaderGroups Rows Padding
       set_HeaderGroups set_Headers set_Alignment] in H1, H2, H3, H4, H5.
  rewrite length_insert, length_replicate in H1.
  rewrite length_insert, length_replicate in H2.
  rewrite length_insert, length_replicate in H3.
  cbn [mbind option_bind]. change (profiles !! 0) with (Some first).
  cbn [mbind option_bind]. rewrite populateDiffRows_preorder.
  exists t1. split; [done|]. unfold n in *. repeat split; (done || lia).
Qed.

(** For a list of profiles that is not empty, a first profile whose
    depths are all counts and a correlation map whose slots lie within the
    profiles, [tabularizeDiff] returns a table whose rows are the rows of
    the nodes of the first profile, in pre-order. *)
Lemma tabularizeDiff_spec (first : Entry) (rest : list Entry)
    (m : gmap string (gmap nat Entry)) diffCols threshold :
  validDepths first = true →
  (∀ name i e, slot m name i = Some e → i < length (first :: rest)) →
  ∃ t rows,
    tabularizeDiff columnHeader (first :: rest) m diffCols threshold = Some t ∧
    mapM (λ e, buildRow e (length (first :: rest)) m diffCols threshold)
      (preorder first) = Some rows ∧
    Rows t = rows ∧
    length (Headers t) = length (first :: rest) * length diffCols + 1 ∧
    length (Alignment_ t) = length (Headers t) ∧
    length (HeaderGroups t) = length (first :: rest) + 1.
Proof.
  intros Hdepth Hbound.
  destruct (tabularizeDiff_mapM first rest m diffCols threshold)
    as (t1 & H4 & H1 & H2 & H3 & ->).
  destruct (mapM (λ e, buildRow e (length (first :: rest)) m diffCols
                         threshold) (preorder first)) as [rows|] eqn:Hrows.
  - exists (append_rows rows t1), rows. cbn [mbind option_bind].
    split; [done|]. split; [done|].
    rewrite Rows_append_rows, H4. split; [done|].
    by destruct (append_rows_keeps rows t1) as (-> & -> & -> & _).
  - exfalso. apply mapM_None in Hrows. apply Exists_exists in Hrows.
    destruct Hrows as (e & Hin & He).
    destruct (buildRow_spec e (length (first :: rest)) m diffCols threshold)
      as (row & Hrow & _); [| |congruence].
    + by apply (validDepths_elem first).
    + intros i e'. apply Hbound.
Qed.

End Table.

(** ** Rows in closed form *)



Lemma length_bind_blocks {B : Type} (g : nat → list B) (c s n : nat) :
  (∀ i, length (g i) = c) → length (seq s n ≫= g) = n * c.
Proof.
  intros Hg. revert s. induction n as [|n IH]; intros s; simpl; [done|].
  rewrite length_app, Hg, IH. lia.
Qed.

Lemma lookup_bind_blocks {B : Type} (g : nat → list B) (c s n i j : nat) :
  (∀ i, length (g i) = c) → i < n → j < c →
  (seq s n ≫= g) !! (i * c + j) = g (s + i) !! j.
Proof.
  intros Hg. revert s i. induction n as [|n IH]; intros s i Hi Hj; [lia|].
  simpl. destruct i as [|i].
  - rewrite lookup_app_l by (rewrite Hg; lia). by rewrite Nat.add_0_r.
  - rewrite lookup_app_r by (rewrite Hg; lia). rewrite Hg.
    replace (S i * c + j - c) with (i * c + j) by lia.
    rewrite IH by lia. f_equal. f_equal. lia.
Qed.

(** A list made of a head and of [n] blocks of [c] elements is known by
    its head and by the elements of its blocks. *)
Lemma list_eq_blocks {B : Type} (l : list B) (x : B) (g : nat → list B)
    (c n : nat) :
  (∀ i, length (g i) = c) →
  length l = n * c + 1 →
  l !! 0 = Some x →
  (∀ i j, i < n → j < c → l !! (i * c + 1 + j) = g i !! j) →
  l = x :: (seq 0 n ≫= g).
Proof.
  intros Hg Hlen Hhead Hcells. apply list_eq. intros [|k]; [done|]. simpl.
  destruct (decide (k < n * c)) as [Hk|Hk].
  - assert (Hc : 0 < c) by nia.
    set (i := k / c). set (j := k mod c).
    assert (Hkij : k = i * c + j)
      by (unfold i, j; rewrite Nat.mul_comm; apply Nat.div_mod_eq).
    assert (Hj : j < c) by (apply Nat.mod_upper_bound; lia).
    assert (Hi : i < n) by (apply Nat.Div0.div_lt_upper_bound; lia).
    rewrite Hkij at 2. rewrite (lookup_bind_blocks g c 0 n i j) by done.
    replace (S k) with (i * c + 1 + j) by lia. by apply Hcells.
  - rewrite lookup_ge_None_2 by lia. symmetry. apply lookup_ge_None_2.
    rewrite (length_bind_blocks g c) by done. lia.
Qed.

Lemma buildRow_rowOf pe numProfiles (m : gmap string (gmap nat Entry))
    diffCols threshold :
  validDepth (Depth pe) = true →
  (∀ i e, slot m (Name pe) i = Some e → i < numProfiles) →
  buildRow pe numProfiles m diffCols threshold =
    Some (rowOf m numProfiles diffCols threshold pe).
Proof.
  intros Hdepth Hbound.
  destruct (buildRow_spec pe numProfiles m diffCols threshold Hdepth Hbound)
    as (row & -> & Hlen & Hhead & Hcells).
  f_equal. unfold rowOf, metricCells.
  apply (list_eq_blocks _ _ _ (length diffCols) numProfiles);
    [intros i; by rewrite length_fmap|done|done|].
  intros i j Hi Hj. rewrite list_lookup_fmap. by apply Hcells.
Qed.

Lemma slot_correlateEntries_bound (profiles : list Entry) name i e :
  slot (correlateEntries profiles) name i = Some e → i < length profiles.
Proof.
  rewrite slot_correlateEntries. intros H.
  destruct (profiles !! i) as [p|] eqn:Hp; [|done].
  by apply lookup_lt_Some in Hp.
Qed.

Lemma mapM_total {A B : Type} (f : A → option B) (g : A → B) (l : list A) :
  (∀ x, x ∈ l → f x = Some (g x)) → mapM f l = Some (g <$> l).
Proof.
  induction l as [|x l IH]; intros Hf; simpl; [done|].
  rewrite (Hf x) by left. simpl. rewrite IH; [done|].
  intros y Hy. apply Hf. by right.
Qed.

(** The rows of the nodes of a tree on the correlation map of a run:
    all of them are built when every depth is a count, and none is
    returned when one is not. *)
Lemma mapM_buildRow_correlateEntries (profiles : list Entry) (pe : Entry)
    (diffCols : list TableColumnType) (threshold : float) :
  mapM (λ e, buildRow e (length profiles) (correlateEntries profiles)
               diffCols threshold) (preorder pe)
  = if validDepths pe
    then Some (rowOf (correlateEntries profiles) (length profiles) diffCols
                 threshold <$> preorder pe)
    else None.
Proof.
  destruct (validDepths pe) eqn:Hok.
  - apply mapM_total. intros e He. apply buildRow_rowOf.
    + by apply (validDepths_elem pe).
    + intros i e'. apply slot_correlateEntries_bound.
  - apply validDepths_false in Hok as (e & He & Hd).
    apply mapM_None, Exists_exists. exists e. split; [done|].
    by apply buildRow_invalid_depth.
Qed.

(** The table of a run, in closed form: on the correlation map of the
    profiles [tabularizeDiff] returns a table exactly when the depth of
    every node of the first profile is a count, and its rows are then the
    rows of the nodes of the first profile in pre-order. *)
Lemma tabularizeDiff_run (columnHeader : TableColumnType → string)
    (baseline : Entry) (others : list Entry)
    (diffCols : list TableColumnType) (threshold : float) :
  if validDepths baseline
  then ∃ t,
    tabularizeDiff columnHeader (baseline :: others)
      (correlateEntries (baseline :: others)) diffCols threshold = Some t ∧
    Rows t = rowOf (correlateEntries (baseline :: others))
               (length (baseline :: others)) diffCols threshold
             <$> preorder baseline
  else
    tabularizeDiff columnHeader (baseline :: others)
      (correlateEntries (baseline :: others)) diffCols threshold = None.
Proof.
  destruct (tabularizeDiff_mapM columnHeader baseline others
              (correlateEntries (baseline :: others)) diffCols threshold)
    as (t1 & HR & _ & _ & _ & ->).
  rewrite mapM_buildRow_correlateEntries.
  destruct (validDepths baseline); [|done].
  eexists. split; [done|]. by rewrite Rows_append_rows, HR.
Qed.

(** The table of a run: for a first profile whose depths are all counts,
    [tabularizeDiff] on the correlation map of the profiles returns a
    table, and its rows are the rows of the nodes of the first profile in
    pre-order. *)
Lemma tabularizeDiff_rows (columnHeader : TableColumnType → string)
    (baseline : Entry) (others : list Entry)
    (diffCols : list TableColumnType) (threshold : float) :
  validDepths baseline = true →
  ∃ t,
    tabularizeDiff columnHeader (baseline :: others)
      (correlateEntries (baseline :: others)) diffCols threshold = Some t ∧
    Rows t = rowOf (correlateEntries (baseline :: others))
               (length (baseline :: others)) diffCols threshold
             <$> preorder baseline.
Proof.
  intros Hok.
  pose proof (tabularizeDiff_run columnHeader baseline others diffCols
                threshold) as H.
  by rewrite Hok in H.
Qed.

(** The layout of the table: the call-stack column and then, for each
    profile, one header per column, all right-aligned, under a header group
    that spans them. *)
Lemma tabularizeDiff_layout (columnHeader : TableColumnType → string)
    (baseline : Entry) (others : list Entry)
    (m : gmap string (gmap nat Entry))
    (diffCols : list TableColumnType) (threshold : float) (t : Table) :
  tabularizeDiff columnHeader (baseline :: others) m diffCols threshold
    = Some t →
  let n := length (baseline :: others) in
  Headers t
    = "call stack"%string :: (seq 0 n ≫= λ _, columnHeader <$> diffCols) ∧
  Alignment_ t = AlignLeft :: replicate (n * length diffCols) AlignRight ∧
  HeaderGroups t
    = mkHeaderGroup "" 1
      :: ((λ i, mkHeaderGroup (groupLabel i) (length diffCols)) <$> seq 0 n) ∧
  Padding t = 1.
Proof.
  intros Hrun n. unfold tabularizeDiff in Hrun.
  set (profiles := baseline :: others) in *. fold n in Hrun.
  cbn [Headers Alignment_ HeaderGroups set_Alignment] in Hrun.
  unfold make in Hrun. rewrite !length_replicate in Hrun.
  rewrite !slice_set_Some in Hrun by (rewrite length_replicate; lia).
  cbn [mbind option_bind] in Hrun.
  unfold slice_update in Hrun. rewrite lookup_replicate_2 in Hrun by lia.
  cbn [mbind option_bind] in Hrun.
  destruct (fillGroups columnHeader 0 profiles diffCols _) as [t1|] eqn:Hfill;
    [|done].
  cbn [mbind option_bind] in Hrun.
  change (profiles !! 0) with (Some baseline) in Hrun.
  cbn [mbind option_bind] in Hrun. rewrite populateDiffRows_preorder in Hrun.
  destruct (mapM _ (preorder baseline)) as [rows|]; [|done].
  injection Hrun as <-.
  destruct (append_rows_keeps rows t1) as (-> & -> & -> & ->).
  match type of Hfill with
  | fillGroups _ _ _ _ ?t0 = _ =>
      destruct (fillGroups_spec columnHeader 0 profiles diffCols t0)
        as (t1' & Hfill' & S1 & S2 & S3 & _ & S5);
        [table_simpl; rewrite length_insert, length_replicate; fold n; lia
        |table_simpl; by rewrite !length_insert, !length_replicate
        |table_simpl; rewrite length_insert, length_replicate; fold n; lia|]
  end.
  rewrite Hfill in Hfill'. injection Hfill' as <-.
  apply fillGroups_content in Hfill as (F1 & F2 & F3 & F4);
    [|table_simpl; rewrite length_insert, length_replicate; fold n; lia
     |table_simpl; by rewrite !length_insert, !length_replicate
     |table_simpl; rewrite length_insert, length_replicate; fold n; lia].
  table_simpl. fold n in F1, F3.
  rewrite length_insert, length_replicate in S1.
  rewrite length_insert, length_replicate in S2.
  rewrite length_insert, length_replicate in S3.
  split; [|split; [|split]].
  - apply (list_eq_blocks _ _ _ (length diffCols) n).
    + intros i. by rewrite length_fmap.
    + done.
    + destruct (F2 0) as [-> _]; [lia|].
      apply list_lookup_insert_eq. rewrite length_replicate. lia.
    + intros i j Hi Hj. rewrite list_lookup_fmap. apply F1; lia.
  - apply list_eq. intros [|k].
    + destruct (F2 0) as [_ ->]; [lia|].
      apply list_lookup_insert_eq. rewrite length_replicate. lia.
    + simpl. destruct (decide (k < n * length diffCols)) as [Hk|Hk].
      * assert (Hc : 0 < length diffCols) by nia.
        rewrite lookup_replicate_2 by done.
        replace (S k) with
          (k / length diffCols * length diffCols + 1 + k mod length diffCols)
          by (pose proof (Nat.div_mod_eq k (length diffCols)); lia).
        apply F1.
        -- split; [lia|]. apply Nat.Div0.div_lt_upper_bound. lia.
        -- apply Nat.mod_upper_bound. lia.
      * rewrite lookup_ge_None_2 by lia. symmetry. apply lookup_ge_None_2.
        rewrite length_replicate. unfold n in *. simpl in *. lia.
  - apply list_eq. intros [|k].
    + rewrite F4 by lia.
      apply list_lookup_insert_eq. rewrite length_replicate. lia.
    + change (HeaderGroups t1 !! S k
              = ((λ i, mkHeaderGroup (groupLabel i) (length diffCols))
                 <$> seq 0 n) !! k).
      rewrite list_lookup_fmap.
      destruct (decide (k < n)) as [Hk|Hk].
      * rewrite lookup_seq_lt by done. simpl. apply F3. lia.
      * rewrite lookup_seq_ge by lia. simpl. apply lookup_ge_None_2.
        rewrite S3. lia.
  - by rewrite S5.
Qed.

Lemma rowOf_lookup (m : gmap string (gmap nat Entry)) (numProfiles : nat)
    (diffCols : list TableColumnType) (threshold : float) (pe : Entry)
    (i j : nat) (dType : TableColumnType) :
  i < numProfiles → diffCols !! j = Some dType →
  rowOf m numProfiles diffCols threshold pe !! (i * length diffCols + 1 + j)
  = Some (metricCell m (Name pe) threshold i dType).
Proof.
  intros Hi Hj. unfold rowOf, metricCells.
  replace (i * length diffCols + 1 + j) with (S (i * length diffCols + j))
    by lia.
  simpl.
  rewrite (lookup_bind_blocks _ (length diffCols) 0 numProfiles i j);
    [|intros; by rewrite length_fmap|done|by apply lookup_lt_Some in Hj].
  simpl. by rewrite list_lookup_fmap, Hj.
Qed.

Lemma fmap_lookup_pair {A B : Type} (f : A → B) (l : list A) (k : nat)
    (x : A) (y : B) :
  l !! k = Some x → (f <$> l) !! k = Some y → y = f x.
Proof. intros Hx. rewrite list_lookup_fmap, Hx. by intros [= <-]. Qed.

(** ** The characters of a formatted number *)




Lemma all_chars_app P (s1 s2 : string) :
  all_chars P (s1 +:+ s2) = all_chars P s1 && all_chars P s2.
Proof.
  induction s1 as [|c s1 IH]; simpl; [done|].
  by rewrite IH, andb_assoc.
Qed.

Lemma all_chars_impl (P Q : ascii → bool) (s : string) :
  (∀ c, P c = true → Q c = true) →
  all_chars P s = true → all_chars Q s = true.
Proof.
  intros HPQ. induction s as [|c s IH]; simpl; [done|].
  intros [Hc Hs]%andb_true_iff. apply andb_true_iff. auto.
Qed.

Lemma all_chars_substring P (n k : nat) (s : string) :
  all_chars P s = true → all_chars P (String.substring n k s) = true.
Proof.
  revert n k. induction s as [|c s IH]; intros n k; simpl.
  - by destruct n, k.
  - intros [Hc Hs]%andb_true_iff. destruct n as [|n].
    + destruct k as [|k]; simpl; [done|]. rewrite Hc. simpl. by apply IH.
    + by apply IH.
Qed.

Lemma all_chars_copies P (s : string) (n : nat) :
  all_chars P s = true → all_chars P (copies s n) = true.
Proof.
  intros Hs. induction n as [|n IH]; simpl; [done|].
  by rewrite all_chars_app, Hs, IH.
Qed.

Lemma numeric_digits (n : N) : all_chars numeric_char (digits n) = true.
Proof.
  unfold digits. generalize (N.to_uint n). intros d.
  induction d as [|d IH|d IH|d IH|d IH|d IH|d IH|d IH|d IH|d IH|d IH];
    simpl; [done|exact IH..].
Qed.

Lemma numeric_point (precision : nat) (ds : string) :
  all_chars numeric_char ds = true →
  all_chars numeric_char (point precision ds) = true.
Proof.
  intros Hds. unfold point.
  assert (Hpad : all_chars numeric_char (pad_zeros (S precision) ds) = true).
  { unfold pad_zeros. rewrite all_chars_app, Hds.
    by rewrite all_chars_copies. }
  rewrite !all_chars_app, !all_chars_substring by done. done.
Qed.

(** Whatever the value, [%f] prints numeric characters only. *)
Lemma numeric_fmt_f (precision : nat) (x : float) :
  all_chars numeric_char (fmt_f precision x) = true.
Proof.
  unfold fmt_f. destruct (Prim2SF x) as [s|s| |s m e].
  - rewrite all_chars_app, numeric_point by done. by destruct s.
  - by destruct s.
  - done.
  - rewrite all_chars_app, numeric_point by apply numeric_digits.
    by destruct s.
Qed.

Lemma numeric_char_plain (c : ascii) :
  numeric_char c = true → plain_char c = true.
Proof.
  unfold numeric_char, plain_char.
  destruct (Ascii.eqb_spec c "027") as [->|_]; [done|].
  destruct (Ascii.eqb_spec c "%") as [->|_]; done.
Qed.

(** ** fmtDiff *)

#[local] Open Scope float_scope.

(** C6. When the absolute difference of the two values is strictly below
    the threshold, [fmtDiff] returns the candidate value to two decimals
    followed by the neutral marker, and nothing else: the result holds no
    escape character (no colour sequence) and no percent sign. *)
Theorem fmtDiff_below_threshold (baseLine candidate threshold : float) :
  (abs (baseLine - candidate) <? threshold) = true →
  fmtDiff baseLine candidate threshold
    = (fmt_f 2 candidate +:+ " (--)")%string ∧
  all_chars plain_char (fmtDiff baseLine candidate threshold) = true.
Proof.
  intros Hlt. unfold fmtDiff. rewrite Hlt. split; [done|].
  rewrite all_chars_app. apply andb_true_iff. split; [|done].
  eapply all_chars_impl; [apply numeric_char_plain|apply numeric_fmt_f].
Qed.


Lemma fmtDiff_not_below (baseLine candidate threshold : float) :
  (abs (baseLine - candidate) <? threshold) = false →
  fmtDiff baseLine candidate threshold =
    factorCell candidate (speedupOf baseLine candidate)
      (colorOf (speedupOf baseLine candidate)).
Proof. intros Hlt. unfold fmtDiff. by rewrite Hlt. Qed.


(** C4, as stated, fails.  For a baseline total of 120,000,000 ns and a
    candidate total of 10,000,000 ns with threshold 10, the absolute delta
    is not below the threshold and the speedup is 12, not 1; the cell is
    the candidate followed by the green factor [12.0x].  It is not
    [10.00 ms (↓ 1100.0%)], and it holds no percent sign and no
    [1100.0]. *)
Lemma fmtDiff_percentage_counterexample :
  totalTime Mock.main1 = 120 ∧ totalTime Mock.main2 = 10 ∧
  (abs (120 - 10) <? 10) = false ∧
  (speedupOf 120 10 =? 1) = false ∧
  diffCell Mock.main1 Mock.main2 10 TableColTotal
    = ("10.00 (" +:+ green +:+ "12.0x" +:+ reset +:+ ")")%string ∧
  diffCell Mock.main1 Mock.main2 10 TableColTotal
    ≠ "10.00 ms (↓ 1100.0%)"%string ∧
  String.index 0 "%" (diffCell Mock.main1 Mock.main2 10 TableColTotal) = None ∧
  String.index 0 "1100.0" (diffCell Mock.main1 Mock.main2 10 TableColTotal)
    = None.
Proof. vm_compute. repeat split; discriminate. Qed.

(** C4, amended.  Where the absolute delta is not below the threshold and
    the speedup is not 1, the speedup is the ratio of the baseline to the
    candidate (0 for a candidate of 0), and the cell is the candidate to two
    decimals followed, in parentheses, by that ratio itself to one decimal
    with the suffix [x], not clamped, between a colour escape (yellow for a
    ratio of 0, green for a ratio of at least 1, red below 1) and the
    reset. *)
Theorem fmtDiff_speedup_factor (baseLine candidate threshold : float) :
  (abs (baseLine - candidate) <? threshold) = false →
  (speedupOf baseLine candidate =? 1) = false →
  speedupOf baseLine candidate
    = (if candidate =? 0 then 0 else baseLine / candidate) ∧
  fmtDiff baseLine candidate threshold
    = factorCell candidate (speedupOf baseLine candidate)
        (if speedupOf baseLine candidate =? 0 then yellow
         else if 1 <=? speedupOf baseLine candidate then green else red).
Proof.
  intros Hlt Hne. rewrite fmtDiff_not_below by done. split.
  - unfold speedupOf in *.
    destruct (abs (baseLine - candidate) <? diffEpsilon); [done|].
    by destruct (candidate =? 0).
  - unfold colorOf. rewrite Hne. by rewrite orb_false_r.
Qed.

Lemma fmtDiff_speedup_factor_witness :
  (abs (120 - 10) <? 10) = false ∧
  (speedupOf 120 10 =? 1) = false ∧
  speedupOf 120 10 = (if 10 =? 0 then 0 else 120 / 10) ∧
  fmtDiff 120 10 10
    = factorCell 10 (speedupOf 120 10)
        (if speedupOf 120 10 =? 0 then yellow
         else if 1 <=? speedupOf 120 10 then green else red).
Proof.
  split; [reflexivity|]. split; [reflexivity|].
  apply (fmtDiff_speedup_factor 120 10 10); reflexivity.
Defined.

(** The factor is printed as it is, however large. *)
Example fmtDiff_factor_not_clamped :
  fmtDiff 120 10 10 = ("10.00 (" +:+ green +:+ "12.0x" +:+ reset +:+ ")")%string ∧
  fmtDiff 5000 1 0 = ("1.00 (" +:+ green +:+ "5000.0x" +:+ reset +:+ ")")%string ∧
  fmtDiff 2 4 0 = ("4.00 (" +:+ red +:+ "0.5x" +:+ reset +:+ ")")%string ∧
  fmtDiff 0 10 0 = ("10.00 (" +:+ yellow +:+ "0.0x" +:+ reset +:+ ")")%string.
Proof. vm_compute. done. Qed.

(** C5, as stated, fails.  With a baseline of 5,000 ns (0.005 ms), a
    candidate of 0 and threshold 0, the candidate is 0 and the absolute
    delta is not below the threshold, yet the speedup is 1 and not 0;
    and for a baseline of 10 ms and a candidate of 0 ms the cell is the
    yellow factor [0.0x], not [0.00 ms (--)]. *)
Lemma fmtDiff_zero_candidate_counterexample :
  (float64_of_int 5000 / 1.0e6 = 0.005) ∧
  (0 =? 0) = true ∧
  (abs (0.005 - 0) <? 0) = false ∧
  speedupOf 0.005 0 = 1 ∧
  (speedupOf 0.005 0 =? 0) = false ∧
  fmtDiff 0.005 0 0 = ("0.00 (" +:+ yellow +:+ "1.0x" +:+ reset +:+ ")")%string ∧
  fmtDiff 10 0 0 = ("0.00 (" +:+ yellow +:+ "0.0x" +:+ reset +:+ ")")%string ∧
  fmtDiff 10 0 0 ≠ "0.00 ms (--)"%string.
Proof. vm_compute. repeat split; discriminate. Qed.

(** C5, amended.  Where the candidate is 0 and the absolute delta is not
    below the threshold, the speedup is 0, or 1 when the absolute delta is
    below the epsilon 0.01; either way the cell is the neutral (yellow) case:
    the candidate followed by the yellow factor. *)
Theorem fmtDiff_zero_candidate (baseLine candidate threshold : float) :
  (candidate =? 0) = true →
  (abs (baseLine - candidate) <? threshold) = false →
  speedupOf baseLine candidate
    = (if abs (baseLine - candidate) <? diffEpsilon then 1 else 0) ∧
  colorOf (speedupOf baseLine candidate) = yellow ∧
  fmtDiff baseLine candidate threshold
    = factorCell candidate (speedupOf baseLine candidate) yellow.
Proof.
  intros Hzero Hlt. rewrite fmtDiff_not_below by done.
  assert (Hs : speedupOf baseLine candidate
               = (if abs (baseLine - candidate) <? diffEpsilon then 1 else 0)).
  { unfold speedupOf. by rewrite Hzero. }
  assert (Hc : colorOf (speedupOf baseLine candidate) = yellow).
  { rewrite Hs. by destruct (abs (baseLine - candidate) <? diffEpsilon). }
  by rewrite Hc.
Qed.

Lemma fmtDiff_zero_candidate_witness :
  (0 =? 0) = true ∧
  (abs (10 - 0) <? 0) = false ∧
  speedupOf 10 0 = (if abs (10 - 0) <? diffEpsilon then 1 else 0) ∧
  colorOf (speedupOf 10 0) = yellow ∧
  fmtDiff 10 0 0 = factorCell 0 (speedupOf 10 0) yellow.
Proof.
  split; [reflexivity|]. split; [reflexivity|].
  apply (fmtDiff_zero_candidate 10 0 0); reflexivity.
Defined.

#[local] Close Scope float_scope.

(** ** The emitted rows *)

(** C2. When every node of the first (baseline) profile has a depth
    that line 143 accepts as a count, neither negative nor 2^62 or more
    (with another, [strings.Repeat] panics and no table is returned), the
    table is returned and its rows are the rows of the nodes of the
    baseline profile in depth-first pre-order, one row per node and
    nothing else: each row starts with the call-stack cell of its node, and
    every row is the row of some node of the baseline tree, so that a name
    met only in the other profiles has no row. *)
Theorem rows_follow_baseline_preorder
    (columnHeader : TableColumnType → string)
    (baseline : Entry) (others : list Entry)
    (diffCols : list TableColumnType) (threshold : float) :
  validDepths baseline = true →
  let profiles := baseline :: others in
  let m := correlateEntries profiles in
  ∃ t,
    tabularizeDiff columnHeader profiles m diffCols threshold = Some t ∧
    Rows t = rowOf m (length profiles) diffCols threshold
             <$> preorder baseline ∧
    (λ row, row !! 0) <$> Rows t = callCell <$> preorder baseline ∧
    length (Rows t) = length (preorder baseline) ∧
    (∀ row, row ∈ Rows t →
       ∃ pe, pe ∈ preorder baseline ∧
             row = rowOf m (length profiles) diffCols threshold pe).
Proof.
  intros Hdepth profiles m.
  destruct (tabularizeDiff_rows columnHeader baseline others diffCols
              threshold Hdepth) as (t & Ht & HR).
  exists t. fold profiles in Ht, HR. fold m in Ht, HR.
  split; [done|]. split; [done|]. rewrite HR. split; [|split].
  - rewrite <- list_fmap_compose. apply list_fmap_ext.
    intros k pe Hpe. simpl. symmetry. apply callCell_Some.
    apply (validDepths_elem baseline); [done|].
    by eapply list_elem_of_lookup_2.
  - by rewrite length_fmap.
  - intros row Hrow. apply list_elem_of_fmap in Hrow as (pe & -> & Hpe).
    eauto.
Qed.

Lemma rows_follow_baseline_preorder_witness :
  let profiles := [Mock.main1; Mock.main2] in
  let m := correlateEntries profiles in
  validDepths Mock.main1 = true ∧
  ∃ t,
    tabularizeDiff (λ _, ""%string) profiles m [TableColTotal] 0%float
      = Some t ∧
    Rows t = rowOf m (length profiles) [TableColTotal] 0%float
             <$> preorder Mock.main1 ∧
    (λ row, row !! 0) <$> Rows t = callCell <$> preorder Mock.main1 ∧
    length (Rows t) = length (preorder Mock.main1) ∧
    (∀ row, row ∈ Rows t →
       ∃ pe, pe ∈ preorder Mock.main1 ∧
             row = rowOf m (length profiles) [TableColTotal] 0%float pe).
Proof.
  split; [reflexivity|].
  apply (rows_follow_baseline_preorder (λ _, ""%string) Mock.main1
           [Mock.main2] [TableColTotal] 0%float).
  reflexivity.
Defined.

(** The metric cell of a name reads the slots of the correlation map:
    the last node of the name in the tree of the profile, compared with
    the last node of the name in the baseline tree. *)
Lemma metricCell_correlateEntries (baseline : Entry) (others : list Entry)
    (name : string) (threshold : float) (i : nat) (dType : TableColumnType) :
  metricCell (correlateEntries (baseline :: others)) name threshold i dType =
    match (baseline :: others) !! i ≫= λ p, last (occurrences name p) with
    | Some e => cellOf (last (occurrences name baseline)) i e threshold dType
    | None => ""%string
    end.
Proof. unfold metricCell. by rewrite !slot_correlateEntries. Qed.



(** A baseline tree with two nodes named [foo]: both rows show the
    total of the second one (2 ms, and 4 ms in the other profile), not
    the 1 ms of the node the first row is anchored to. *)
Example rows_show_last_occurrence :
  let foo_a := mkEntry "foo" 1 1000000 0 0 1 [] in
  let foo_b := mkEntry "foo" 1 2000000 0 0 1 [] in
  let base := mkEntry "main" 0 3000000 0 0 1 [foo_a; foo_b] in
  let other := mkEntry "main" 0 3000000 0 0 1
                 [mkEntry "foo" 1 4000000 0 0 1 []] in
  Rows <$> tabularizeDiff (λ _, ""%string) [base; other]
             (correlateEntries [base; other]) [TableColTotal] 0%float
  = Some [ ["+ main"; "3.00 (---)";
            "3.00 (" +:+ yellow +:+ "1.0x" +:+ reset +:+ ")"];
           ["| - foo"; "2.00 (---)";
            "4.00 (" +:+ red +:+ "0.5x" +:+ reset +:+ ")"];
           ["| - foo"; "2.00 (---)";
            "4.00 (" +:+ red +:+ "0.5x" +:+ reset +:+ ")"] ]%string.
Proof. vm_compute. reflexivity. Qed.

(** ** A run of DiffProfiles *)

(** C8, as stated, fails.  Two arguments are given, the column list
    resolves to one column and both arguments load, so that none of the
    three causes of an error holds; but the node of the loaded profile has
    depth -1, [strings.Repeat] panics at line 143, and the run neither
    writes a table nor returns nil. *)
Lemma DiffProfiles_negative_depth_counterexample :
  let broken := mkEntry "main" (-1) 1000000 1000000 1000000 1 [] in
  let ParseTableColumList := λ _ : string, ([TableColTotal], @None error) in
  let LoadProfile := λ _ : string, @inl Entry error broken in
  let ctx := mkContext ["a.json"; "b.json"]%string "total" 0%float in
  ¬ (length (Args ctx) < 2 ∨ noColumnsResolved ParseTableColumList ctx ∨
     loadFails LoadProfile ctx) ∧
  loadProfiles LoadProfile (Args ctx) = inl [broken; broken] ∧
  strings_Repeat "| " (Depth broken) = None ∧
  DiffProfiles (λ _, "total"%string) ParseTableColumList LoadProfile true ctx
  = None ∧
  (∀ t, DiffProfiles (λ _, "total"%string) ParseTableColumList LoadProfile
          true ctx ≠ Some ([mkWrite t false], None)).
Proof.
  cbv zeta. split; [|by vm_compute].
  unfold noColumnsResolved, loadFails. simpl.
  intros [?|[[?|?]|(? & ? & _ & ?)]]; (lia || done).
Qed.

Section Run.

Context (columnHeader : TableColumnType → string).
Context (ParseTableColumList : string → list TableColumnType * option error).
Context (LoadProfile : string → Entry + error).
Context (IsTerminal : bool).

Abbreviation load := (loadProfiles LoadProfile).
Abbreviation run :=
  (DiffProfiles columnHeader ParseTableColumList LoadProfile IsTerminal).
Abbreviation noColumns := (noColumnsResolved ParseTableColumList).
Abbreviation loadFailure := (loadFails LoadProfile).
Abbreviation invalidDepth := (baselineDepthInvalid LoadProfile).


Lemma loadProfiles_inr (args : list string) :
  (∃ err, load args = inr err) ↔
  (∃ arg err, arg ∈ args ∧ LoadProfile arg = inr err).
Proof.
  induction args as [|arg args IH]; simpl.
  - split; [by intros [? ?]|]. intros (? & ? & []%elem_of_nil & _).
  - destruct (LoadProfile arg) as [p|err] eqn:Harg.
    + destruct (load args) as [ps|err] eqn:Hrest.
      * split; [by intros [? ?]|].
        intros (a & err & [->|Ha]%elem_of_cons & Hload); [congruence|].
        destruct IH as [_ IH]. destruct IH as [? ?]; [eauto|done].
      * split; [|eauto]. intros _.
        destruct IH as [IH _]. destruct IH as (a & e & Ha & He); [eauto|].
        exists a, e. split; [by right|done].
    + split; [|eauto]. intros _. exists arg, err. split; [left|done].
Qed.

Lemma loadProfiles_inl (args : list string) (profiles : list Entry) :
  load args = inl profiles →
  length profiles = length args ∧
  Forall2 (λ arg p, LoadProfile arg = inl p) args profiles.
Proof.
  revert profiles. induction args as [|arg args IH]; intros profiles; simpl.
  - intros [= <-]. by split.
  - destruct (LoadProfile arg) as [p|] eqn:Harg; [|done].
    destruct (load args) as [ps|]; [|done].
    intros [= <-]. destruct (IH ps eq_refl) as [Hlen Hall].
    split; [simpl; by rewrite Hlen|]. by constructor.
Qed.

(** A run ends in one of three ways: an error with nothing written; a
    panic at line 143, with nothing written and nothing returned, when the
    baseline has a node whose depth is no count; or one table written, that
    of the loaded profiles, and nil. *)
Lemma DiffProfiles_cases (ctx : Context) :
  (∃ err, run ctx = Some ([], Some err)) ∨
  (invalidDepth ctx ∧ run ctx = None) ∨
  (¬ invalidDepth ctx ∧
   ∃ profiles t,
     load (Args ctx) = inl profiles ∧
     tabularizeDiff columnHeader profiles (correlateEntries profiles)
       (ParseTableColumList (ctx_columns ctx)).1 (ctx_threshold ctx)
       = Some t ∧
     run ctx = Some ([mkWrite t (negb IsTerminal)], None)).
Proof.
  unfold DiffProfiles, baselineDepthInvalid.
  destruct (decide (length (Args ctx) < 2)) as [Hargs|Hargs]; [eauto|].
  destruct (ParseTableColumList (ctx_columns ctx)) as [diffCols [err|]];
    simpl; [eauto|].
  destruct (decide (length diffCols = 0)); [eauto|].
  destruct (load (Args ctx)) as [profiles|err] eqn:Hload; [|eauto].
  destruct (loadProfiles_inl _ _ Hload) as [Hlen Hall].
  destruct profiles as [|baseline others]; [simpl in Hlen; lia|].
  destruct (Args ctx) as [|arg args]; [by inversion Hall|].
  apply Forall2_cons_1 in Hall as [Harg _].
  pose proof (tabularizeDiff_run columnHeader baseline others diffCols
                (ctx_threshold ctx)) as Hrun.
  right. destruct (validDepths baseline) eqn:Hdepth.
  - right. destruct Hrun as (t & Ht & _). split.
    + intros (arg' & baseline' & [= <-] & Hload' & Hneg). congruence.
    + exists (baseline :: others), t. by rewrite Ht.
  - left. split; [by exists arg, baseline|]. by rewrite Hrun.
Qed.

(** The causes of an error, in the order of the tests of lines 34-54. *)
Lemma DiffProfiles_error_iff (ctx : Context) :
  length (Args ctx) < 2 ∨ noColumns ctx ∨ loadFailure ctx ↔
  ∃ err, run ctx = Some ([], Some err).
Proof.
  unfold noColumnsResolved, loadFails, DiffProfiles.
  destruct (decide (length (Args ctx) < 2)) as [Hargs|Hargs];
    [split; eauto|].
  destruct (ParseTableColumList (ctx_columns ctx)) as [diffCols [err|]];
    simpl; [split; eauto|].
  destruct (decide (length diffCols = 0)) as [Hcols|Hcols].
  { apply nil_length_inv in Hcols. split; eauto. }
  assert (Hcols' : diffCols ≠ []) by (by intros ->).
  destruct (load (Args ctx)) as [profiles|err] eqn:Hload.
  - split.
    + intros [?|[[?|?]|Hf]]; [lia|done|done|].
      apply loadProfiles_inr in Hf as [err Herr]. congruence.
    + intros [err Herr]. exfalso.
      destruct (tabularizeDiff columnHeader profiles _ diffCols _);
        simpl in Herr; congruence.
  - split; [eauto|]. intros _. right. right.
    apply loadProfiles_inr. eauto.
Qed.

(** C8, amended.  [DiffProfiles] returns an error, with nothing written,
    exactly when fewer than two profile arguments are given, or no display
    column is resolved from the column list (the parser reports an error or
    returns an empty list), or some profile argument does not load.  In
    every other case the outcome turns on the depths of the baseline: when
    the profile of the first argument has a node whose depth
    [strings.Repeat] does not accept as a count (a negative depth, or one
    of 2^62 or more) the run panics at line 143, writing nothing and
    returning nothing; otherwise it writes a single table to standard
    output, the table of the loaded profiles, and returns nil. *)
Theorem DiffProfiles_outcome (ctx : Context) :
  let failing :=
    length (Args ctx) < 2 ∨ noColumns ctx ∨ loadFailure ctx in
  (failing ↔ ∃ err, run ctx = Some ([], Some err)) ∧
  (¬ failing ∧ invalidDepth ctx ↔ run ctx = None) ∧
  (¬ failing ∧ ¬ invalidDepth ctx ↔
   ∃ profiles t,
     load (Args ctx) = inl profiles ∧
     tabularizeDiff columnHeader profiles (correlateEntries profiles)
       (ParseTableColumList (ctx_columns ctx)).1 (ctx_threshold ctx)
       = Some t ∧
     run ctx = Some ([mkWrite t (negb IsTerminal)], None)).
Proof.
  intros failing.
  pose proof (DiffProfiles_error_iff ctx) as Herror. fold failing in Herror.
  split; [done|].
  destruct (DiffProfiles_cases ctx)
    as [[err Herr]|[[Hneg Hpanic]|[Hpos (profiles & t & Hl & Ht & Hrun)]]].
  - split.
    + split; [|congruence]. intros [Hok _]. destruct Hok. apply Herror. eauto.
    + split.
      * intros [Hok _]. destruct Hok. apply Herror. eauto.
      * intros (? & ? & _ & _ & Hrun). congruence.
  - split.
    + split; [done|]. intros _. split; [|done].
      intros [err Herr]%Herror. congruence.
    + split; [by intros [_ ?]|].
      intros (? & ? & _ & _ & Hrun). congruence.
  - split.
    + split; [by intros [_ ?]|congruence].
    + split; [eauto 6|]. intros _. split; [|done].
      intros [err Herr]%Herror. congruence.
Qed.

(** Where the parser follows the convention of returning no list along
    with an error, the second cause reads: the resolved list is empty. *)
Lemma DiffProfiles_error_conventional_parser (ctx : Context) :
  (∀ s cols err, ParseTableColumList s = (cols, Some err) → cols = []) →
  (∃ err, run ctx = Some ([], Some err)) ↔
  length (Args ctx) < 2 ∨
  (ParseTableColumList (ctx_columns ctx)).1 = [] ∨
  loadFailure ctx.
Proof.
  intros Hconv.
  rewrite <- DiffProfiles_error_iff. unfold noColumnsResolved.
  destruct (ParseTableColumList (ctx_columns ctx)) as [cols [err|]] eqn:Hp;
    simpl.
  - rewrite (Hconv _ _ _ Hp). tauto.
  - tauto.
Qed.

End Run.

(** ** Durations in the cells *)

#[local] Open Scope float_scope.




Lemma append_assoc (s1 s2 s3 : string) :
  ((s1 +:+ s2) +:+ s3 = s1 +:+ (s2 +:+ s3))%string.
Proof.
  induction s1 as [|c s1 IH]; [done|].
  change (String c ((s1 +:+ s2) +:+ s3) = String c (s1 +:+ (s2 +:+ s3)))%string.
  by f_equal.
Qed.

Lemma fmtDiff_annotated (baseLine candidate threshold : float) :
  ∃ note, fmtDiff baseLine candidate threshold
          = (fmt_f 2 candidate +:+ " (" +:+ note +:+ ")")%string ∧
          annotation note.
Proof.
  unfold fmtDiff. destruct (abs (baseLine - candidate) <? threshold).
  - exists "--"%string. split; [done|]. right. by left.
  - set (s := speedupOf baseLine candidate).
    exists (colorOf s +:+ fmt_f 1 s +:+ "x" +:+ reset)%string.
    split; [|right; right; by exists s].
    by rewrite !append_assoc.
Qed.

Lemma cellOf_duration (baseLine : option Entry) (i : nat) (e : Entry)
    (threshold : float) (dType : TableColumnType) (v : float) :
  durationValue dType e = Some v →
  ∃ note, cellOf baseLine i e threshold dType
          = (fmt_f 2 v +:+ " (" +:+ note +:+ ")")%string ∧
          annotation note.
Proof.
  intros Hv. unfold cellOf.
  assert (Hplain : ∃ note, plainCell e dType
            = (fmt_f 2 v +:+ " (" +:+ note +:+ ")")%string ∧ annotation note).
  { exists "---"%string. split; [|by left].
    destruct dType; simpl in Hv; try discriminate;
      injection Hv as <-; reflexivity. }
  destruct baseLine as [b|]; [|done].
  destruct (decide (i ≠ 0%nat)); [|done].
  destruct dType; simpl in Hv; try discriminate; injection Hv as <-;
    apply fmtDiff_annotated.
Qed.

(** C7, as stated, fails.  The baseline total of the test profile,
    120,000,000 ns, is rendered as [120.00 (---)]: the value is the raw one
    divided by 1e6 whatever unit one has in mind (not by 1 or by 1e3), and
    the cell carries none of the suffixes [ns], [us], [ms]. *)
Lemma display_unit_counterexample :
  TotalTime Mock.main1 = 120000000%Z ∧
  plainCell Mock.main1 TableColTotal = "120.00 (---)"%string ∧
  durationValue TableColTotal Mock.main1 = Some 120 ∧
  float64_of_int 120000000 / Spec.divisor Spec.UnitNs = 120000000 ∧
  float64_of_int 120000000 / Spec.divisor Spec.UnitUs = 120000 ∧
  (120 =? 120000000) = false ∧
  (120 =? 120000) = false ∧
  String.index 0 (Spec.suffix Spec.UnitNs) "120.00 (---)" = None ∧
  String.index 0 (Spec.suffix Spec.UnitUs) "120.00 (---)" = None ∧
  String.index 0 (Spec.suffix Spec.UnitMs) "120.00 (---)" = None.
Proof. vm_compute. repeat split. Qed.

#[local] Close Scope float_scope.

(** C7, amended.  No display unit is requested anywhere: when every node
    of the baseline has a depth that line 143 accepts as a count, neither
    negative nor 2^62 or more (with another, [strings.Repeat] panics and
    there is no table), the table is returned and in every row the cell of
    profile [i] and column [j] is the metric cell of the row's name; and
    every metric cell of a duration column is the raw nanosecond value
    divided by the constant 1e6 (for the mean, the total divided by the
    invocations times 1e6), printed to two decimals and followed at once by
    the parenthesised annotation, with no unit suffix. *)
Theorem duration_cells_in_milliseconds
    (columnHeader : TableColumnType → string)
    (baseline : Entry) (others : list Entry)
    (diffCols : list TableColumnType) (threshold : float) :
  validDepths baseline = true →
  let profiles := baseline :: others in
  let m := correlateEntries profiles in
  ∃ t,
    tabularizeDiff columnHeader profiles m diffCols threshold = Some t ∧
    Rows t = rowOf m (length profiles) diffCols threshold
             <$> preorder baseline ∧
    (∀ k pe row i j dType,
       preorder baseline !! k = Some pe → Rows t !! k = Some row →
       i < length profiles → diffCols !! j = Some dType →
       row !! (i * length diffCols + 1 + j)
       = Some (metricCell m (Name pe) threshold i dType)) ∧
    (∀ name i dType e v,
       slot m name i = Some e → durationValue dType e = Some v →
       ∃ note,
         metricCell m name threshold i dType
         = (fmt_f 2 v +:+ " (" +:+ note +:+ ")")%string ∧
         annotation note).
Proof.
  intros Hdepth profiles m.
  destruct (tabularizeDiff_rows columnHeader baseline others diffCols
              threshold Hdepth) as (t & Ht & HR).
  exists t. split; [done|]. split; [done|]. split.
  - intros k pe row i j dType Hpe Hrow Hi Hj. rewrite HR in Hrow.
    rewrite (fmap_lookup_pair _ _ _ _ _ Hpe Hrow). by apply rowOf_lookup.
  - intros name i dType e v Hslot Hv. unfold metricCell. rewrite Hslot.
    by apply cellOf_duration.
Qed.

Lemma duration_cells_in_milliseconds_witness :
  let profiles := [Mock.main1; Mock.main2] in
  let m := correlateEntries profiles in
  let diffCols := [TableColTotal; TableColAvg] in
  validDepths Mock.main1 = true ∧
  ∃ t,
    tabularizeDiff (λ _, ""%string) profiles m diffCols 10%float = Some t ∧
    Rows t = rowOf m (length profiles) diffCols 10%float
             <$> preorder Mock.main1 ∧
    (∀ k pe row i j dType,
       preorder Mock.main1 !! k = Some pe → Rows t !! k = Some row →
       i < length profiles → diffCols !! j = Some dType →
       row !! (i * length diffCols + 1 + j)
       = Some (metricCell m (Name pe) 10%float i dType)) ∧
    (∀ name i dType e v,
       slot m name i = Some e → durationValue dType e = Some v →
       ∃ note,
         metricCell m name 10%float i dType
         = (fmt_f 2 v +:+ " (" +:+ note +:+ ")")%string ∧
         annotation note).
Proof.
  split; [reflexivity|].
  apply (duration_cells_in_milliseconds (λ _, ""%string) Mock.main1
           [Mock.main2] [TableColTotal; TableColAvg] 10%float).
  reflexivity.
Defined.

(** ** A node that was never invoked *)


Lemma div_zero_non_finite (x : float) : non_finite (x / 0)%float = true.
Proof.
  unfold non_finite. rewrite div_spec.
  change (Prim2SF 0) with (S754_zero false).
  by destruct (Prim2SF x).
Qed.

(** With no invocation the divisor of line 156 is [float64(0*1e6)], that
    is 0, and the mean is not finite, whatever the total. *)
Lemma avgTime_zero_invocations (pe : Entry) :
  Invocations pe = 0%Z → non_finite (avgTime pe) = true.
Proof.
  intros Hinv. unfold avgTime. rewrite Hinv.
  change (float64_of_int (int_mul 0 1000000)) with 0%float.
  apply div_zero_non_finite.
Qed.

(** C9. A node with an invocation count of zero has a mean time that is
    not finite, whatever its total; and nothing on the way rejects it: with
    two profiles made of one such node each (a total of 5 ms, no
    invocation), a run of [DiffProfiles] on the mean column returns nil and
    writes a table whose cells show the infinite mean. *)
Theorem zero_invocations_mean_not_finite :
  (∀ pe, Invocations pe = 0%Z → non_finite (avgTime pe) = true) ∧
  let idle := mkEntry "main" 0 5000000 5000000 5000000 0 [] in
  let columnHeader := λ _ : TableColumnType, "avg"%string in
  let ParseTableColumList := λ _ : string, ([TableColAvg], @None error) in
  let LoadProfile := λ _ : string, @inl Entry error idle in
  let ctx := mkContext ["a.json"; "b.json"]%string "avg" 0%float in
  Invocations idle = 0%Z ∧
  avgTime idle = infinity ∧
  ∃ t,
    DiffProfiles columnHeader ParseTableColumList LoadProfile true ctx
      = Some ([mkWrite t false], None) ∧
    Rows t = [ ["- main"; "+Inf (---)";
                "+Inf (" +:+ red +:+ "NaNx" +:+ reset +:+ ")"] ]%string.
Proof.
  split; [exact avgTime_zero_invocations|].
  cbv zeta. split; [reflexivity|]. split; [reflexivity|].
  eexists. split; vm_compute; reflexivity.
Qed.

(** ** Instances *)

(** The trees of TestCorrelateEntries in diff_test.go give three
    entries: main and bar in both profiles, foo in the first only. *)
Example correlateEntries_test_trees :
  let bar := mkEntry "bar" 2 0 0 0 0 [] in
  let p1 := mkEntry "main" 0 0 0 0 0 [mkEntry "foo" 1 0 0 0 0 [bar]] in
  let p2 := mkEntry "main" 0 0 0 0 0 [mkEntry "bar" 1 0 0 0 0 []] in
  let m := correlateEntries [p1; p2] in
  size m = 3 ∧
  (is_Some (slot m "main" 0) ∧ is_Some (slot m "main" 1)) ∧
  (is_Some (slot m "foo" 0) ∧ slot m "foo" 1 = None) ∧
  (is_Some (slot m "bar" 0) ∧ is_Some (slot m "bar" 1)).
Proof. vm_compute. repeat split; eauto. Qed.

Lemma correlateEntries_last_write_wins_witness :
  let foo_a := mkEntry "foo" 1 1000000 0 0 1
                 [mkEntry "foo" 2 2000000 0 0 1 []] in
  let foo_c := mkEntry "foo" 1 3000000 0 0 1 [] in
  let bar := mkEntry "bar" 1 0 0 0 1 [] in
  let p := mkEntry "main" 0 6000000 0 0 1 [foo_a; foo_c; bar] in
  slot (correlateEntries [p; p]) "foo" 1 = Some foo_c.
Proof.
  cbv zeta.
  eapply (correlateEntries_last_write_wins _ 1 _ "foo"
            [_; _; _] _ [_]).
  - reflexivity.
  - reflexivity.
  - reflexivity.
  - intros e' He'. apply list_elem_of_singleton in He'. subst e'.
    discriminate.
Defined.

Lemma fmtDiff_below_threshold_witness :
  (abs (1 - 10) <? 11)%float = true ∧
  fmtDiff 1 10 11 = (fmt_f 2 10 +:+ " (--)")%string ∧
  all_chars plain_char (fmtDiff 1 10 11) = true.
Proof.
  split; [reflexivity|].
  apply (fmtDiff_below_threshold 1 10 11). reflexivity.
Defined.

(** The cases of TestFmtDiff in diff_test.go whose expected text the
    code produces up to the unit suffix: a delta below the threshold. *)
Example fmtDiff_below_threshold_text :
  fmtDiff 1 10 11 = "10.00 (--)"%string.
Proof. vm_compute. reflexivity. Qed.

(** The table of the profiles of the tests, for the columns total, min,
    max, mean and invocations and a threshold of 10: two rows, in the
    pre-order of the baseline, in milliseconds. *)
Example mock_table_rows :
  let factor (value ratio : string) : string :=
    (value +:+ " (" +:+ green +:+ ratio +:+ "x" +:+ reset +:+ ")")%string in
  Rows <$> tabularizeDiff (λ _, ""%string) [Mock.main1; Mock.main2]
             (correlateEntries [Mock.main1; Mock.main2])
             [TableColTotal; TableColMin; TableColMax; TableColAvg;
              TableColInvocations] 10%float
  = Some [ ["+ main"; "120.00 (---)"; "120.00 (---)"; "120.00 (---)";
            "120.00 (---)"; "1";
            factor "10.00" "12.0"; factor "10.00" "12.0";
            factor "10.00" "12.0"; factor "10.00" "12.0"; "1"];
           ["| - foo"; "120.00 (---)"; "10.00 (---)"; "110.00 (---)";
            "60.00 (---)"; "2";
            factor "10.00" "12.0"; "4.00 (--)"; factor "6.00" "18.3";
            factor "5.00" "12.0"; "2"] ]%string.
Proof. vm_compute. reflexivity. Qed.

(** * Part IV: further properties of diff.go *)

(** ** The correlation map, beyond the rows it has *)

(** X1. A slot of the correlation map holds a node of the name it is
    filed under, taken from the tree of the profile of the slot: no node is
    filed under another name or another profile. *)
Theorem slot_holds_node_of_its_name (profiles : list Entry) (name : string)
    (i : nat) (e : Entry) :
  slot (correlateEntries profiles) name i = Some e →
  Name e = name ∧ ∃ p, profiles !! i = Some p ∧ e ∈ preorder p.
Proof.
  rewrite slot_correlateEntries.
  destruct (profiles !! i) as [p|]; simpl; [|done].
  intros He%last_Some_elem_of. unfold occurrences in He.
  apply list_elem_of_filter in He as [Hn He]. eauto.
Qed.

Lemma slot_holds_node_of_its_name_witness :
  slot (correlateEntries [Mock.main1; Mock.main2]) "foo" 1 = Some Mock.foo2 ∧
  (Name Mock.foo2 = "foo"%string ∧
   ∃ p, [Mock.main1; Mock.main2] !! 1 = Some p ∧ Mock.foo2 ∈ preorder p).
Proof.
  split; [vm_compute; reflexivity|].
  apply (slot_holds_node_of_its_name [Mock.main1; Mock.main2] "foo" 1).
  vm_compute. reflexivity.
Defined.

(** X2. No entry of the correlation map is empty: a name is filed only
    when a node of some profile is visited, and that profile then has its
    slot. *)
Theorem correlation_entries_not_empty (profiles : list Entry) (name : string)
    (row : gmap nat Entry) :
  correlateEntries profiles !! name = Some row →
  ∃ i e, row !! i = Some e.
Proof.
  intros Hrow.
  assert (Hdom : name ∈ dom (correlateEntries profiles))
    by (apply elem_of_dom; eauto).
  rewrite dom_correlateEntries, elem_of_list_to_set in Hdom.
  apply list_elem_of_fmap in Hdom as (e & -> & He).
  apply list_elem_of_bind in He as (p & He & Hp).
  apply list_elem_of_lookup in Hp as [i Hi].
  assert (Hsome : is_Some (last (occurrences (Name e) p)))
    by (apply last_occurrences_is_Some; eauto).
  destruct Hsome as [e' He'].
  exists i, e'.
  assert (Hslot : slot (correlateEntries profiles) (Name e) i = Some e')
    by (by rewrite slot_correlateEntries, Hi).
  unfold slot, group in Hslot. by rewrite Hrow in Hslot.
Qed.

Lemma correlation_entries_not_empty_witness :
  ∃ row, correlateEntries [Mock.main1; Mock.main2] !! "foo"%string = Some row ∧
         ∃ i e, row !! i = Some e.
Proof.
  eexists. split; [vm_compute; reflexivity|].
  eapply (correlation_entries_not_empty [Mock.main1; Mock.main2] "foo").
  vm_compute. reflexivity.
Defined.

(** X3. The slots of a profile depend on its own tree only: they are
    the slots this tree gets when it is correlated alone, whatever the other
    profiles are and wherever the profile stands in the list. *)
Theorem slots_depend_on_own_profile (profiles : list Entry) (i : nat)
    (p : Entry) (name : string) :
  profiles !! i = Some p →
  slot (correlateEntries profiles) name i
  = slot (correlateEntries [p]) name 0.
Proof.
  intros Hp. rewrite !slot_correlateEntries, Hp. done.
Qed.

Lemma slots_depend_on_own_profile_witness :
  slot (correlateEntries [Mock.main1; Mock.main2]) "foo" 1
  = slot (correlateEntries [Mock.main2]) "foo" 0.
Proof.
  apply (slots_depend_on_own_profile [Mock.main1; Mock.main2] 1 Mock.main2).
  reflexivity.
Defined.

(** X4. [populateEntryGroups] for one profile leaves every slot of the
    other profiles as it was, and in its own profile every slot of a name
    that its tree does not have. *)
Theorem populateEntryGroups_frame (profileId : nat) (pe : Entry)
    (m : gmap string (gmap nat Entry)) (name : string) (i : nat) :
  i ≠ profileId ∨ (∀ e, e ∈ preorder pe → Name e ≠ name) →
  slot (populateEntryGroups profileId pe m) name i = slot m name i.
Proof.
  intros Hframe.
  rewrite populateEntryGroups_preorder, slot_foldl_recordEntry.
  destruct (decide (profileId = i)) as [->|Hne]; [|done].
  destruct Hframe as [Hi|Hnone]; [done|].
  destruct (last (filter (λ e, Name e = name) (preorder pe))) as [e|] eqn:He;
    [|done].
  apply last_Some_elem_of, list_elem_of_filter in He as [Hn He].
  by destruct (Hnone e He).
Qed.

Lemma populateEntryGroups_frame_witness :
  slot (populateEntryGroups 1 Mock.main2 (correlateEntries [Mock.main1]))
    "foo" 0
  = slot (correlateEntries [Mock.main1]) "foo" 0.
Proof.
  apply (populateEntryGroups_frame 1 Mock.main2 _ "foo" 0).
  left. discriminate.
Defined.

(** ** fmtDiff, beyond the cells of the claims *)

#[local] Open Scope float_scope.

Lemma numeric_char_no_escape (c : ascii) :
  numeric_char c = true → negb (Ascii.eqb c "027") = true.
Proof.
  unfold numeric_char. by destruct (Ascii.eqb_spec c "027") as [->|_].
Qed.

Lemma colorOf_not_escape_free (speedup : float) (rest : string) :
  escape_free (colorOf speedup +:+ rest) = false.
Proof.
  unfold escape_free. rewrite all_chars_app. unfold colorOf.
  by destruct ((speedup =? 0) || (speedup =? 1)), (1 <=? speedup).
Qed.

(** X5. The result of [fmtDiff] holds a colour sequence exactly when a
    comparison is made: it is free of escape characters if and only if the
    absolute delta is below the threshold. *)
Theorem fmtDiff_escape_free_iff_below (baseLine candidate threshold : float) :
  escape_free (fmtDiff baseLine candidate threshold)
  = (abs (baseLine - candidate) <? threshold).
Proof.
  unfold fmtDiff.
  assert (Hnum : escape_free (fmt_f 2 candidate) = true).
  { unfold escape_free.
    eapply all_chars_impl; [apply numeric_char_no_escape|apply numeric_fmt_f]. }
  destruct (abs (baseLine - candidate) <? threshold).
  - unfold escape_free in *. by rewrite all_chars_app, Hnum.
  - unfold escape_free in *. rewrite all_chars_app, Hnum.
    change (all_chars (λ c, negb (Ascii.eqb c "027")) ?s)
      with (escape_free s).
    change (" (" +:+ ?s)%string with (String " " (String "(" s)).
    cbn [escape_free all_chars]. simpl negb. simpl andb.
    apply colorOf_not_escape_free.
Qed.

Lemma abs_not_below_nonpositive (x t : float) :
  (0 <? t) = false → (abs x <? t) = false.
Proof.
  rewrite !ltb_spec, abs_spec. change (Prim2SF 0) with (S754_zero false).
  destruct (Prim2SF t) as [st|st| |st mt et],
           (Prim2SF x) as [sx|sx| |sx mx ex];
    try destruct st; try destruct sx; simpl; try reflexivity;
    try discriminate.
Qed.

(** X6. A threshold that is not positive (zero, negative or NaN) clips
    nothing: whatever the two values, [fmtDiff] makes the comparison and
    returns the coloured factor, never the neutral marker. *)
Theorem fmtDiff_nonpositive_threshold (baseLine candidate threshold : float) :
  (0 <? threshold) = false →
  fmtDiff baseLine candidate threshold
  = factorCell candidate (speedupOf baseLine candidate)
      (colorOf (speedupOf baseLine candidate)).
Proof.
  intros Ht. apply fmtDiff_not_below. by apply abs_not_below_nonpositive.
Qed.

Lemma fmtDiff_nonpositive_threshold_witness :
  (0 <? 0) = false ∧
  fmtDiff 10 10 0 = factorCell 10 (speedupOf 10 10) (colorOf (speedupOf 10 10)).
Proof.
  split; [reflexivity|].
  apply (fmtDiff_nonpositive_threshold 10 10 0). reflexivity.
Defined.

(** X7. Where the comparison is made and the absolute delta is below the
    epsilon 0.01, the cell shows the yellow factor [1.0x] whatever the ratio
    of the two values is. *)
Theorem fmtDiff_within_epsilon (baseLine candidate threshold : float) :
  (abs (baseLine - candidate) <? threshold) = false →
  (abs (baseLine - candidate) <? diffEpsilon) = true →
  fmtDiff baseLine candidate threshold
  = (fmt_f 2 candidate +:+ " (" +:+ yellow +:+ "1.0x" +:+ reset +:+ ")")%string.
Proof.
  intros Hlt Heps. rewrite fmtDiff_not_below by done.
  unfold speedupOf. rewrite Heps. reflexivity.
Qed.

Lemma fmtDiff_within_epsilon_witness :
  (abs (0.004 - 0.008) <? 0) = false ∧
  (abs (0.004 - 0.008) <? diffEpsilon) = true ∧
  fmtDiff 0.004 0.008 0
  = (fmt_f 2 0.008 +:+ " (" +:+ yellow +:+ "1.0x" +:+ reset +:+ ")")%string.
Proof.
  split; [reflexivity|]. split; [reflexivity|].
  apply (fmtDiff_within_epsilon 0.004 0.008 0); reflexivity.
Defined.

#[local] Close Scope float_scope.

(** ** The call-stack cell *)

(** The text of lines 143-149 in one piece: the guides, the marker, the
    name. *)
Lemma callText_shape (pe : Entry) :
  callText pe
  = (copies "| " (Z.to_nat (Depth pe))
     +:+ (if decide (Children pe = []) then "- " else "+ ") +:+ Name pe)%string.
Proof.
  unfold callText. destruct (Children pe); simpl; by rewrite append_assoc.
Qed.

Lemma guides_marker_inj (d1 d2 : nat) (leaf1 leaf2 : bool) (n1 n2 : string) :
  (copies "| " d1 +:+ (if leaf1 then "- " else "+ ") +:+ n1
   = copies "| " d2 +:+ (if leaf2 then "- " else "+ ") +:+ n2)%string →
  d1 = d2 ∧ leaf1 = leaf2 ∧ n1 = n2.
Proof.
  revert d2. induction d1 as [|d1 IH]; intros [|d2] Heq.
  - destruct leaf1, leaf2; vm_compute in Heq; by simplify_eq.
  - destruct leaf1; vm_compute in Heq; discriminate.
  - destruct leaf2; vm_compute in Heq; discriminate.
  - change (copies "| " (S ?d) +:+ ?s)%string
      with (String "|" (String " " (copies "| " d +:+ s)))%string
      in Heq.
    injection Heq as Heq. destruct (IH d2 Heq) as (-> & -> & ->). done.
Qed.

(** Two nodes with the same text have the same number of guides, are both
    leaves or both branches, and have the same name. *)
Lemma callText_inj (pe1 pe2 : Entry) :
  callText pe1 = callText pe2 →
  Z.to_nat (Depth pe1) = Z.to_nat (Depth pe2) ∧
  (Children pe1 = [] ↔ Children pe2 = []) ∧
  Name pe1 = Name pe2.
Proof.
  rewrite !callText_shape. intros Heq.
  destruct (decide (Children pe1 = [])) as [H1|H1],
           (decide (Children pe2 = [])) as [H2|H2].
  - destruct (guides_marker_inj _ _ true true _ _ Heq) as (? & _ & ?).
    by repeat split.
  - by destruct (guides_marker_inj _ _ true false _ _ Heq) as (_ & ? & _).
  - by destruct (guides_marker_inj _ _ false true _ _ Heq) as (_ & ? & _).
  - destruct (guides_marker_inj _ _ false false _ _ Heq) as (? & _ & ?).
    by repeat split.
Qed.

(** X8. The call-stack cell tells the node apart: two nodes with the
    same cell have the same depth, are both leaves or both branches, and have
    the same name (a name that itself starts with a guide or a marker does
    not blur this).  The one other way for the two calls of line 143 to
    agree is that both panic, on two depths that are no count. *)
Theorem callCell_determines_node (pe1 pe2 : Entry) :
  callCell pe1 = callCell pe2 →
  (callCell pe1 = None ∧
   validDepth (Depth pe1) = false ∧ validDepth (Depth pe2) = false) ∨
  (is_Some (callCell pe1) ∧
   Depth pe1 = Depth pe2 ∧
   (Children pe1 = [] ↔ Children pe2 = []) ∧
   Name pe1 = Name pe2).
Proof.
  rewrite !callCell_callText.
  destruct (validDepth (Depth pe1)) eqn:Hd1,
           (validDepth (Depth pe2)) eqn:Hd2; try done.
  - intros [= Heq]. right. split; [done|].
    destruct (callText_inj pe1 pe2 Heq) as (Hd & Hleaf & Hname).
    apply validDepth_true in Hd1, Hd2. split; [lia|done].
  - intros _. by left.
Qed.

Lemma callCell_determines_node_witness :
  callCell Mock.foo1 = callCell Mock.foo2 ∧
  ((callCell Mock.foo1 = None ∧
    validDepth (Depth Mock.foo1) = false ∧
    validDepth (Depth Mock.foo2) = false) ∨
   (is_Some (callCell Mock.foo1) ∧
    Depth Mock.foo1 = Depth Mock.foo2 ∧
    (Children Mock.foo1 = [] ↔ Children Mock.foo2 = []) ∧
    Name Mock.foo1 = Name Mock.foo2)).
Proof.
  split; [reflexivity|].
  apply (callCell_determines_node Mock.foo1 Mock.foo2). reflexivity.
Defined.

(** The cells of the spec's example, two levels deep, and the panics of
    a negative depth and of a depth of 2^62, whose guides would take 2^63
    characters. *)
Example callCell_two_levels :
  callCell (mkEntry "f" 2 0 0 0 1 [mkEntry "g" 3 0 0 0 1 []])
    = Some "| | + f"%string ∧
  callCell (mkEntry "f" 2 0 0 0 1 []) = Some "| | - f"%string ∧
  callCell (mkEntry "| - f" 0 0 0 0 1 []) = Some "- | - f"%string ∧
  callCell (mkEntry "f" (-1) 0 0 0 1 []) = None ∧
  callCell (mkEntry "f" (2 ^ 62) 0 0 0 1 []) = None.
Proof. vm_compute. done. Qed.

(** ** The table, beyond its rows *)

Lemma length_rowOf (m : gmap string (gmap nat Entry)) (numProfiles : nat)
    (diffCols : list TableColumnType) (threshold : float) (pe : Entry) :
  length (rowOf m numProfiles diffCols threshold pe)
  = numProfiles * length diffCols + 1.
Proof.
  unfold rowOf, metricCells. simpl.
  rewrite (length_bind_blocks _ (length diffCols))
    by (intros; by rewrite length_fmap).
  lia.
Qed.

Lemma sum_ColSpan_groups (label : nat → string) (c : nat) (l : list nat) :
  sum_list_with ColSpan ((λ i, mkHeaderGroup (label i) c) <$> l)
  = length l * c.
Proof.
  induction l as [|i l IH]; [done|].
  rewrite fmap_cons. cbn [sum_list_with ColSpan]. rewrite IH. simpl. lia.
Qed.

(** X9. The layout of a table that [tabularizeDiff] returns, for any
    list of profiles that is not empty and any correlation map: the header
    [call stack] and then, profile after profile, the header of each
    column; the first column left-aligned and all the others right-aligned;
    one header group of span 1 with no text, then one group per profile,
    [baseline] for the first and [profile i] for the others, each spanning
    the columns; a padding of 1. *)
Theorem table_layout (columnHeader : TableColumnType → string)
    (baseline : Entry) (others : list Entry)
    (m : gmap string (gmap nat Entry))
    (diffCols : list TableColumnType) (threshold : float) (t : Table) :
  tabularizeDiff columnHeader (baseline :: others) m diffCols threshold
    = Some t →
  let n := length (baseline :: others) in
  Headers t
    = "call stack"%string :: (seq 0 n ≫= λ _, columnHeader <$> diffCols) ∧
  Alignment_ t = AlignLeft :: replicate (n * length diffCols) AlignRight ∧
  HeaderGroups t
    = mkHeaderGroup "" 1
      :: ((λ i, mkHeaderGroup
                  (if decide (i = 0) then "baseline"
                   else "profile " +:+ fmt_d (Z.of_nat i))%string
                  (length diffCols)) <$> seq 0 n) ∧
  Padding t = 1.
Proof.
  intros Ht n.
  exact (tabularizeDiff_layout columnHeader baseline others _ _ threshold
           t Ht).
Qed.

Lemma table_layout_witness :
  let header := λ dType : TableColumnType,
    match dType with TableColTotal => "total" | _ => "other" end%string in
  ∃ t,
    tabularizeDiff header [Mock.main1; Mock.main2]
      (correlateEntries [Mock.main1; Mock.main2])
      [TableColTotal; TableColMin] 10%float = Some t ∧
    Headers t
      = ["call stack"; "total"; "other"; "total"; "other"]%string ∧
    Alignment_ t
      = [AlignLeft; AlignRight; AlignRight; AlignRight; AlignRight] ∧
    HeaderGroups t
      = [mkHeaderGroup "" 1; mkHeaderGroup "baseline" 2;
         mkHeaderGroup "profile 1" 2] ∧
    Padding t = 1.
Proof.
  cbv zeta.
  destruct (tabularizeDiff _ [Mock.main1; Mock.main2]
              (correlateEntries [Mock.main1; Mock.main2])
              [TableColTotal; TableColMin] 10%float) as [t|] eqn:Hrun;
    [|vm_compute in Hrun; discriminate].
  exists t. split; [reflexivity|].
  exact (table_layout _ _ _ _ _ _ _ Hrun).
Defined.

(** X10. When every node of the baseline has a depth that line 143
    accepts as a count (neither negative nor 2^62 or more) the table is
    returned and is rectangular: every row has as many cells as there are
    headers and alignments, one more than profiles times columns, and the
    spans of the header groups add up to that number. *)
Theorem table_rectangular (columnHeader : TableColumnType → string)
    (baseline : Entry) (others : list Entry)
    (diffCols : list TableColumnType) (threshold : float) :
  validDepths baseline = true →
  let profiles := baseline :: others in
  let width := length profiles * length diffCols + 1 in
  ∃ t,
    tabularizeDiff columnHeader profiles (correlateEntries profiles)
      diffCols threshold = Some t ∧
    length (Headers t) = width ∧
    length (Alignment_ t) = width ∧
    sum_list_with ColSpan (HeaderGroups t) = width ∧
    Forall (λ row, length row = width) (Rows t).
Proof.
  intros Hdepth profiles width.
  destruct (tabularizeDiff_rows columnHeader baseline others diffCols
              threshold Hdepth) as (t & Ht & HR).
  destruct (tabularizeDiff_layout columnHeader baseline others _ _ threshold
              t Ht) as (HH & HA & HG & _).
  exists t. split; [done|]. rewrite HH, HA, HG, HR. unfold width.
  split; [|split; [|split]].
  - rewrite length_cons, (length_bind_blocks _ (length diffCols))
      by (intros; by rewrite length_fmap).
    fold profiles. lia.
  - rewrite length_cons, length_replicate. fold profiles. lia.
  - cbn [sum_list_with ColSpan]. rewrite sum_ColSpan_groups, length_seq.
    fold profiles. lia.
  - apply Forall_fmap, Forall_forall. intros pe _. apply length_rowOf.
Qed.

Lemma table_rectangular_witness :
  let profiles := [Mock.main1; Mock.main2] in
  let diffCols := [TableColTotal; TableColMin; TableColInvocations] in
  let width := length profiles * length diffCols + 1 in
  validDepths Mock.main1 = true ∧
  ∃ t,
    tabularizeDiff (λ _, ""%string) profiles (correlateEntries profiles)
      diffCols 10%float = Some t ∧
    length (Headers t) = width ∧
    length (Alignment_ t) = width ∧
    sum_list_with ColSpan (HeaderGroups t) = width ∧
    Forall (λ row, length row = width) (Rows t).
Proof.
  split; [reflexivity|].
  apply (table_rectangular (λ _, ""%string) Mock.main1 [Mock.main2]
           [TableColTotal; TableColMin; TableColInvocations] 10%float).
  reflexivity.
Defined.

(** ** The cells of the emitted rows *)

(** X11. When every node of the baseline has a depth that line 143
    accepts as a count (neither negative nor 2^62 or more) the table is
    returned, and in every row the name of the node has a baseline node
    [b], the last of that name in the baseline tree.  The cells of the
    baseline are those of [b] with no comparison; the cells of another profile
    that has the name are those of its last node of the name compared with
    [b] by [fmtDiff]; the cells of a profile without the name stay empty.
    The branch without a baseline (line 182, for a profile other than the
    first) is never taken. *)
Theorem table_cells (columnHeader : TableColumnType → string)
    (baseline : Entry) (others : list Entry)
    (diffCols : list TableColumnType) (threshold : float) :
  validDepths baseline = true →
  let profiles := baseline :: others in
  ∃ t,
    tabularizeDiff columnHeader profiles (correlateEntries profiles)
      diffCols threshold = Some t ∧
    ∀ k pe row,
      preorder baseline !! k = Some pe → Rows t !! k = Some row →
      ∃ b,
        last (occurrences (Name pe) baseline) = Some b ∧
        ∀ i j dType,
          i < length profiles → diffCols !! j = Some dType →
          row !! (i * length diffCols + 1 + j)
          = Some
              match profiles !! i ≫= λ p, last (occurrences (Name pe) p) with
              | None => ""%string
              | Some e =>
                  if decide (i = 0) then plainCell e dType
                  else diffCell b e threshold dType
              end.
Proof.
  intros Hdepth profiles.
  destruct (tabularizeDiff_rows columnHeader baseline others diffCols
              threshold Hdepth) as (t & Ht & HR).
  exists t. split; [done|]. intros k pe row Hpe Hrow.
  assert (Hb : is_Some (last (occurrences (Name pe) baseline))).
  { apply last_occurrences_is_Some. exists pe. split; [|done].
    apply list_elem_of_lookup. eauto. }
  destruct Hb as [b Hb]. exists b. split; [done|].
  intros i j dType Hi Hj. rewrite HR in Hrow.
  rewrite (fmap_lookup_pair _ _ _ _ _ Hpe Hrow).
  rewrite (rowOf_lookup _ _ _ _ _ _ _ dType) by done. f_equal.
  rewrite metricCell_correlateEntries. fold profiles.
  destruct (profiles !! i ≫= λ p, last (occurrences (Name pe) p))
    as [e|]; [|done].
  rewrite Hb. unfold cellOf.
  destruct (decide (i = 0)) as [->|Hne].
  - by rewrite decide_False by (intros H; by apply H).
  - by rewrite decide_True.
Qed.

Lemma table_cells_witness :
  let profiles := [Mock.main1; Mock.main2] in
  let diffCols := [TableColTotal; TableColInvocations] in
  validDepths Mock.main1 = true ∧
  ∃ t,
    tabularizeDiff (λ _, ""%string) profiles (correlateEntries profiles)
      diffCols 10%float = Some t ∧
    ∀ k pe row,
      preorder Mock.main1 !! k = Some pe → Rows t !! k = Some row →
      ∃ b,
        last (occurrences (Name pe) Mock.main1) = Some b ∧
        ∀ i j dType,
          i < length profiles → diffCols !! j = Some dType →
          row !! (i * length diffCols + 1 + j)
          = Some
              match profiles !! i ≫= λ p, last (occurrences (Name pe) p) with
              | None => ""%string
              | Some e =>
                  if decide (i = 0) then plainCell e dType
                  else diffCell b e 10%float dType
              end.
Proof.
  split; [reflexivity|].
  apply (table_cells (λ _, ""%string) Mock.main1 [Mock.main2]
           [TableColTotal; TableColInvocations] 10%float).
  reflexivity.
Defined.

(** X12. Go hands out the entries of a map in no fixed order.  Whatever
    the order in which line 154 meets the entries of the group of a node, the
    outcome is that of [buildRow]: the panic of line 143 for a depth that
    is no count, which comes before the loop, and otherwise the same row,
    the one of the closed form. *)
Theorem row_independent_of_map_order (pe : Entry) (numProfiles : nat)
    (m : gmap string (gmap nat Entry)) (diffCols : list TableColumnType)
    (threshold : float) (entries : list (nat * Entry)) :
  entries ≡ₚ map_to_list (group m (Name pe)) →
  (∀ i e, slot m (Name pe) i = Some e → i < numProfiles) →
  (cell ← callCell pe;
   row ← slice_set 0 cell
           (make ""%string (numProfiles * length diffCols + 1));
   fillRow (slot m (Name pe) 0) diffCols threshold entries row)
  = buildRow pe numProfiles m diffCols threshold ∧
  buildRow pe numProfiles m diffCols threshold
  = if validDepth (Depth pe)
    then Some (rowOf m numProfiles diffCols threshold pe)
    else None.
Proof.
  intros Hperm Hbound. split.
  - unfold buildRow. destruct (callCell pe) as [cell|]; simpl; [|done].
    rewrite slice_set_Some by (unfold make; rewrite length_replicate; lia).
    simpl. apply (fillRow_order_irrelevant _ _ _ _ _ numProfiles).
    + done.
    + rewrite Hperm. apply NoDup_fst_map_to_list.
    + intros i e Hie. rewrite Hperm in Hie.
      apply elem_of_map_to_list in Hie. by apply (Hbound i e).
    + unfold make. by rewrite length_insert, length_replicate.
  - destruct (validDepth (Depth pe)) eqn:Hd.
    + by apply buildRow_rowOf.
    + by apply buildRow_invalid_depth.
Qed.

Lemma row_independent_of_map_order_witness :
  let m := correlateEntries [Mock.main1; Mock.main2] in
  (cell ← callCell Mock.foo1;
   row ← slice_set 0 cell (make ""%string (2 * 1 + 1));
   fillRow (slot m "foo" 0) [TableColTotal] 10%float
     [(0, Mock.foo1); (1, Mock.foo2)] row)
  = buildRow Mock.foo1 2 m [TableColTotal] 10%float ∧
  buildRow Mock.foo1 2 m [TableColTotal] 10%float
  = if validDepth (Depth Mock.foo1)
    then Some (rowOf m 2 [TableColTotal] 10%float Mock.foo1)
    else None.
Proof.
  cbv zeta.
  apply (row_independent_of_map_order Mock.foo1 2
           (correlateEntries [Mock.main1; Mock.main2]) [TableColTotal]
           10%float [(0, Mock.foo1); (1, Mock.foo2)]).
  - vm_compute. apply perm_swap.
  - intros i e Hslot. by apply slot_correlateEntries_bound in Hslot.
Defined.

(** ** Where the table code panics *)

(** X13. [tabularizeDiff] on the correlation map of its profiles panics
    exactly when the list of profiles is empty (line 133 reads
    [profiles[0]]) or some node of the first profile has a depth that
    [strings.Repeat] does not accept at line 143: a negative one, or one
    from 2^62 on.  In either case it panics whatever map it is given. *)
Theorem tabularizeDiff_panics_iff
    (columnHeader : TableColumnType → string) (profiles : list Entry)
    (diffCols : list TableColumnType) (threshold : float) :
  (tabularizeDiff columnHeader profiles (correlateEntries profiles)
     diffCols threshold = None ↔
   profiles = [] ∨
   ∃ baseline e,
     head profiles = Some baseline ∧ e ∈ preorder baseline ∧
     (Depth e < 0 ∨ 2 ^ 62 ≤ Depth e)%Z) ∧
  (∀ m, tabularizeDiff columnHeader [] m diffCols threshold = None) ∧
  (∀ baseline others e m,
     e ∈ preorder baseline → (Depth e < 0 ∨ 2 ^ 62 ≤ Depth e)%Z →
     tabularizeDiff columnHeader (baseline :: others) m diffCols threshold
     = None).
Proof.
  assert (Hnil : ∀ m, tabularizeDiff columnHeader [] m diffCols threshold
                      = None) by reflexivity.
  assert (Hneg : ∀ baseline others e m,
            e ∈ preorder baseline → (Depth e < 0 ∨ 2 ^ 62 ≤ Depth e)%Z →
            tabularizeDiff columnHeader (baseline :: others) m diffCols
              threshold = None).
  { intros baseline others e m He Hd%validDepth_false.
    destruct (tabularizeDiff_mapM columnHeader baseline others m diffCols
                threshold) as (t1 & _ & _ & _ & _ & ->).
    rewrite (proj2 (mapM_None _ _)); [done|].
    apply Exists_exists. exists e. split; [done|].
    by apply buildRow_invalid_depth. }
  split; [|done]. split.
  - destruct profiles as [|baseline others]; [by left|]. intros Hnone.
    right. exists baseline.
    pose proof (tabularizeDiff_run columnHeader baseline others diffCols
                  threshold) as Hrun.
    destruct (validDepths baseline) eqn:Hdepth.
    + destruct Hrun as (t & Ht & _). congruence.
    + apply validDepths_false in Hdepth as (e & He & Hd).
      apply validDepth_false in Hd. eauto.
  - intros [->|(baseline & e & Hhead & He & Hd)]; [apply Hnil|].
    destruct profiles as [|baseline' others]; [done|].
    injection Hhead as ->. by apply (Hneg _ _ e).
Qed.

Lemma fillCells_length cell baseIndex dIndex
    (diffCols : list TableColumnType) (row row' : list string) :
  fillCells cell baseIndex dIndex diffCols row = Some row' →
  length row' = length row.
Proof.
  revert dIndex row.
  induction diffCols as [|dType rest IH]; intros dIndex row; simpl.
  - by intros [= <-].
  - unfold slice_set.
    destruct (decide (baseIndex + dIndex < length row)); simpl; [|done].
    intros Hrun%IH. by rewrite length_insert in Hrun.
Qed.

Lemma fillRow_out_of_range baseLine (diffCols : list TableColumnType)
    threshold (entries : list (nat * Entry)) numProfiles (row : list string)
    (i : nat) (e : Entry) :
  diffCols ≠ [] →
  length row = numProfiles * length diffCols + 1 →
  (i, e) ∈ entries → numProfiles ≤ i →
  fillRow baseLine diffCols threshold entries row = None.
Proof.
  intros Hcols. revert row.
  induction entries as [|[i0 e0] rest IH]; intros row Hlen Hin Hi.
  - by apply elem_of_nil in Hin.
  - simpl.
    destruct (fillCells _ (i0 * length diffCols + 1) 0 diffCols row)
      as [row1|] eqn:Hfill; simpl; [|done].
    apply elem_of_cons in Hin as [[= <- <-]|Hin].
    + exfalso. destruct diffCols as [|dType cs]; [done|].
      simpl in Hfill. unfold slice_set in Hfill.
      rewrite decide_False in Hfill; [done|]. simpl in Hlen. nia.
    + apply IH; [|done..]. apply fillCells_length in Hfill. congruence.
Qed.

Lemma fillRow_no_column baseLine threshold (entries : list (nat * Entry))
    (row : list string) :
  fillRow baseLine [] threshold entries row = Some row.
Proof. induction entries as [|[i e] rest IH]; simpl; [done|apply IH]. Qed.

(** X14. The row of a node cannot be built, and [buildRow] panics,
    exactly in two cases: the depth of the node is no count for
    [strings.Repeat] at line 143 (it is negative, or it is 2^62 or more and
    the length of the guides overflows), or there is at least one column
    and the group of the node's name has a slot for a profile index that is
    not below [numProfiles] (an index out of range in the loop of line
    154). *)
Theorem buildRow_panics_iff (pe : Entry)
    (numProfiles : nat) (m : gmap string (gmap nat Entry))
    (diffCols : list TableColumnType) (threshold : float) :
  (buildRow pe numProfiles m diffCols threshold = None ↔
   (Depth pe < 0 ∨ 2 ^ 62 ≤ Depth pe)%Z ∨
   (diffCols ≠ [] ∧ ∃ i e, slot m (Name pe) i = Some e ∧ numProfiles ≤ i)) ∧
  (callCell pe = None ↔ (Depth pe < 0 ∨ 2 ^ 62 ≤ Depth pe)%Z).
Proof.
  rewrite <- !validDepth_false.
  split; [|apply callCell_None].
  destruct (validDepth (Depth pe)) eqn:Hd; [|].
  2:{ split; [by left|]. intros _. by apply buildRow_invalid_depth. }
  rewrite buildRow_valid_depth by done. split.
  - intros Hnone. right.
    destruct diffCols as [|dType cs].
    { by rewrite fillRow_no_column in Hnone. }
    split; [done|].
    destruct (decide (Exists (λ ie : nat * Entry, numProfiles ≤ ie.1)
                        (map_to_list (group m (Name pe))))) as [Hex|Hex].
    + apply Exists_exists in Hex as ([i e] & Hie & Hi).
      apply elem_of_map_to_list in Hie. eauto.
    + exfalso.
      destruct (buildRow_spec pe numProfiles m (dType :: cs) threshold)
        as (row & Hrow & _); [done| |].
      * intros i e Hslot. destruct (decide (i < numProfiles)); [done|].
        exfalso. apply Hex, Exists_exists. exists (i, e).
        split; [by apply elem_of_map_to_list|simpl; lia].
      * rewrite buildRow_valid_depth in Hrow by done. congruence.
  - intros [?|(Hcols & i & e & Hslot & Hi)]; [done|].
    apply (fillRow_out_of_range _ _ _ _ numProfiles _ i e);
      [done| |by apply elem_of_map_to_list|done].
    unfold make. by rewrite length_insert, length_replicate.
Qed.

(** X15. [populateDiffRows], when it returns, has appended one row per
    node of the subtree to the rows the table had, and has left the headers,
    the alignments, the header groups and the padding as they were. *)
Theorem populateDiffRows_appends (pe : Entry) (numProfiles : nat)
    (m : gmap string (gmap nat Entry)) (t t' : Table)
    (diffCols : list TableColumnType) (threshold : float) :
  populateDiffRows pe numProfiles m t diffCols threshold = Some t' →
  ∃ rows,
    Rows t' = Rows t ++ rows ∧
    length rows = length (preorder pe) ∧
    Headers t' = Headers t ∧ Alignment_ t' = Alignment_ t ∧
    HeaderGroups t' = HeaderGroups t ∧ Padding t' = Padding t.
Proof.
  rewrite populateDiffRows_preorder.
  destruct (mapM _ (preorder pe)) as [rows|] eqn:Hrows; simpl; [|done].
  intros [= <-]. exists rows. split; [apply Rows_append_rows|].
  split; [symmetry; by eapply length_mapM|]. apply append_rows_keeps.
Qed.

Lemma populateDiffRows_appends_witness :
  let m := correlateEntries [Mock.main1; Mock.main2] in
  let t0 := mkTable ["call stack"; "total"; "total"]%string [] []
              [["earlier"; "row"; "here"]%string] 1 in
  ∃ t', populateDiffRows Mock.main1 2 m t0 [TableColTotal] 10%float = Some t' ∧
    ∃ rows,
      Rows t' = Rows t0 ++ rows ∧
      length rows = length (preorder Mock.main1) ∧
      Headers t' = Headers t0 ∧ Alignment_ t' = Alignment_ t0 ∧
      HeaderGroups t' = HeaderGroups t0 ∧ Padding t' = Padding t0.
Proof.
  cbv zeta.
  destruct (populateDiffRows Mock.main1 2
              (correlateEntries [Mock.main1; Mock.main2])
              (mkTable ["call stack"; "total"; "total"]%string [] []
                 [["earlier"; "row"; "here"]%string] 1)
              [TableColTotal] 10%float) as [t'|] eqn:Hrun;
    [|vm_compute in Hrun; discriminate].
  exists t'. split; [reflexivity|].
  exact (populateDiffRows_appends _ _ _ _ _ _ _ Hrun).
Defined.

(** A map with a slot for profile 1, read as if there were one profile
    only: the write of line 171 falls outside the row. *)
Example buildRow_out_of_range :
  buildRow Mock.main1 1 (correlateEntries [Mock.main1; Mock.main2])
    [TableColTotal] 10%float = None.
Proof. vm_compute. reflexivity. Qed.

(** A baseline whose only child has depth -1: the row of the root is
    built, the row of the child is not, and no table is returned. *)
Example tabularizeDiff_invalid_depth :
  let child := mkEntry "foo" (-1) 1000000 1000000 1000000 1 [] in
  let root := mkEntry "main" 0 1000000 1000000 1000000 1 [child] in
  let m := correlateEntries [root; root] in
  is_Some (buildRow root 2 m [TableColTotal] 0%float) ∧
  buildRow child 2 m [TableColTotal] 0%float = None ∧
  tabularizeDiff (λ _, ""%string) [root; root] m [TableColTotal] 0%float
  = None.
Proof. vm_compute. repeat split; eauto. Qed.

(** ** DiffProfiles, beyond its outcome *)

Section RunMore.

Context (columnHeader : TableColumnType → string).
Context (ParseTableColumList : string → list TableColumnType * option error).
Context (LoadProfile : string → Entry + error).
Context (IsTerminal : bool).

Lemma loadProfiles_first_failure (before : list string) (arg : string)
    (after : list string) (err : error) :
  Forall (λ a, ∃ p, LoadProfile a = inl p) before →
  LoadProfile arg = inr err →
  loadProfiles LoadProfile (before ++ arg :: after) = inr err.
Proof.
  intros Hbefore Harg.
  induction Hbefore as [|a before [p Hp] _ IH]; simpl.
  - by rewrite Harg.
  - by rewrite Hp, IH.
Qed.

(** X16. With at least two arguments and a column list that resolves to
    at least one column, the error [DiffProfiles] returns is that of the
    first argument, in the order given, that does not load; whether the later
    arguments load does not matter, and nothing is written. *)
Theorem DiffProfiles_first_load_error (ctx : Context)
    (before : list string) (arg : string) (after : list string)
    (diffCols : list TableColumnType) (err : error) :
  Args ctx = before ++ arg :: after →
  2 ≤ length (Args ctx) →
  ParseTableColumList (ctx_columns ctx) = (diffCols, None) →
  diffCols ≠ [] →
  Forall (λ a, ∃ p, LoadProfile a = inl p) before →
  LoadProfile arg = inr err →
  DiffProfiles columnHeader ParseTableColumList LoadProfile IsTerminal ctx
  = Some ([], Some err).
Proof.
  intros Hargs Hlen Hparse Hcols Hbefore Harg. unfold DiffProfiles.
  rewrite decide_False by lia. rewrite Hparse.
  rewrite decide_False by (by intros ?%nil_length_inv).
  by rewrite Hargs, (loadProfiles_first_failure _ _ _ err).
Qed.

(** X17. What a successful run has written: the profiles were loaded
    from the arguments in their order, the columns are those the parser
    returned with no error, every node of the first argument's profile has
    a depth that line 143 accepts as a count, and the rows of the one table written are the rows of
    the nodes of that profile in pre-order, with the escape sequences to be
    stripped exactly when standard output is not a terminal. *)
Theorem DiffProfiles_writes_baseline_rows (ctx : Context) (w : StdoutWrite) :
  DiffProfiles columnHeader ParseTableColumList LoadProfile IsTerminal ctx
    = Some ([w], None) →
  ∃ profiles baseline diffCols,
    ParseTableColumList (ctx_columns ctx) = (diffCols, None) ∧
    Forall2 (λ a p, LoadProfile a = inl p) (Args ctx) profiles ∧
    profiles !! 0 = Some baseline ∧
    validDepths baseline = true ∧
    Rows (written w)
      = rowOf (correlateEntries profiles) (length profiles) diffCols
          (ctx_threshold ctx) <$> preorder baseline ∧
    stripAnsiChars w = negb IsTerminal.
Proof.
  unfold DiffProfiles.
  destruct (decide (length (Args ctx) < 2)) as [Hargs|Hargs]; [done|].
  destruct (ParseTableColumList (ctx_columns ctx)) as [diffCols [err|]];
    [done|].
  destruct (decide (length diffCols = 0)); [done|].
  destruct (loadProfiles LoadProfile (Args ctx)) as [profiles|err] eqn:Hload;
    [|done].
  destruct (loadProfiles_inl _ _ _ Hload) as [Hlen Hall].
  destruct profiles as [|baseline others]; [simpl in Hlen; lia|].
  pose proof (tabularizeDiff_run columnHeader baseline others diffCols
                (ctx_threshold ctx)) as Hrun.
  destruct (validDepths baseline) eqn:Hdepth;
    [|by rewrite Hrun].
  destruct Hrun as (t & -> & HR).
  simpl. intros [= <-].
  exists (baseline :: others), baseline, diffCols. by repeat split.
Qed.

End RunMore.

Lemma DiffProfiles_first_load_error_witness :
  let LoadProfile := λ a : string,
    if String.eqb a "b.json" then @inr Entry error (errForeign "no such file")
    else if String.eqb a "c.json" then inr (errForeign "bad profile")
    else inl Mock.main1 in
  let ParseTableColumList := λ _ : string, ([TableColTotal], @None error) in
  DiffProfiles (λ _, "total"%string) ParseTableColumList LoadProfile true
    (mkContext ["a.json"; "b.json"; "c.json"]%string "total" 10%float)
  = Some ([], Some (errForeign "no such file")).
Proof.
  cbv zeta.
  apply (DiffProfiles_first_load_error _ _ _ _ _ ["a.json"%string]
           "b.json"%string ["c.json"%string] [TableColTotal]).
  - reflexivity.
  - simpl. lia.
  - reflexivity.
  - discriminate.
  - repeat constructor. by eexists.
  - reflexivity.
Defined.

Lemma DiffProfiles_writes_baseline_rows_witness :
  let LoadProfile := λ a : string,
    if String.eqb a "a.json" then @inl Entry error Mock.main1
    else inl Mock.main2 in
  let ParseTableColumList := λ _ : string, ([TableColTotal], @None error) in
  let ctx := mkContext ["a.json"; "b.json"]%string "total" 10%float in
  ∃ w,
    DiffProfiles (λ _, "total"%string) ParseTableColumList LoadProfile false ctx
      = Some ([w], None) ∧
    ∃ profiles baseline diffCols,
      ParseTableColumList (ctx_columns ctx) = (diffCols, None) ∧
      Forall2 (λ a p, LoadProfile a = inl p) (Args ctx) profiles ∧
      profiles !! 0 = Some baseline ∧
      validDepths baseline = true ∧
      Rows (written w)
        = rowOf (correlateEntries profiles) (length profiles) diffCols
            (ctx_threshold ctx) <$> preorder baseline ∧
      stripAnsiChars w = negb false.
Proof.
  cbv zeta.
  set (load := λ a : string,
         if String.eqb a "a.json" then @inl Entry error Mock.main1
         else inl Mock.main2).
  set (parse := λ _ : string, ([TableColTotal], @None error)).
  set (ctx := mkContext ["a.json"; "b.json"]%string "total" 10%float).
  destruct (DiffProfiles (λ _, "total"%string) parse load false ctx)
    as [[[|w [|w' ws]] [err|]]|] eqn:Hrun;
    try (vm_compute in Hrun; discriminate).
  exists w. split; [reflexivity|].
  exact (DiffProfiles_writes_baseline_rows _ _ _ _ _ _ Hrun).
Defined.

(** ** The order of the traversals *)

(** Two correlation maps with the same names and the same slots are the
    same map. *)
Lemma correlation_map_eq (m1 m2 : gmap string (gmap nat Entry)) :
  dom m1 = dom m2 →
  (∀ name i, slot m1 name i = slot m2 name i) →
  m1 = m2.
Proof.
  intros Hdom Hslot. apply map_eq. intros name.
  destruct (m1 !! name) as [r1|] eqn:H1, (m2 !! name) as [r2|] eqn:H2.
  - f_equal. apply map_eq. intros i. specialize (Hslot name i).
    unfold slot, group in Hslot. by rewrite H1, H2 in Hslot.
  - apply mk_is_Some, elem_of_dom in H1. rewrite Hdom in H1.
    apply elem_of_dom in H1 as [? ?]. congruence.
  - apply mk_is_Some, elem_of_dom in H2. rewrite <- Hdom in H2.
    apply elem_of_dom in H2 as [? ?]. congruence.
  - done.
Qed.

(** X18. The traversals of two profiles with different indices commute:
    the correlation map is the same whichever tree is traversed first, so
    that it depends on the index each profile is given and not on the order
    of the loop of line 72. *)
Theorem populateEntryGroups_commute (i j : nat) (p q : Entry)
    (m : gmap string (gmap nat Entry)) :
  i ≠ j →
  populateEntryGroups i p (populateEntryGroups j q m)
  = populateEntryGroups j q (populateEntryGroups i p m).
Proof.
  intros Hij. apply correlation_map_eq.
  - rewrite !populateEntryGroups_preorder, !dom_foldl_recordEntry.
    set_solver.
  - intros name k.
    rewrite !populateEntryGroups_preorder, !slot_foldl_recordEntry.
    destruct (decide (i = k)) as [->|Hik], (decide (j = k)) as [->|Hjk];
      done.
Qed.

Lemma populateEntryGroups_commute_witness :
  populateEntryGroups 0 Mock.main1 (populateEntryGroups 1 Mock.main2 ∅)
  = populateEntryGroups 1 Mock.main2 (populateEntryGroups 0 Mock.main1 ∅).
Proof.
  apply (populateEntryGroups_commute 0 1 Mock.main1 Mock.main2 ∅).
  discriminate.
Defined.
